(** * brewery.ds: field lists, record paths and schema probing

    A shallow embedding of [brewery/ds/base.py] and
    [brewery/ds/sql_streams.py].

    Conventions of the embedding.
    - A Python exception is a value of [exn]; a call that may raise
      returns an [outcome].
    - A dict that the code builds and hands back is a finite map
      ([gmap string _]); Python compares dicts by content, and so does
      [=] on [gmap].
    - A dict that the code only iterates over is given by its [items()]
      in iteration order, a list of pairs with distinct keys.  Python 2
      leaves that order unspecified, so the order is part of the input
      and statements quantify over it.
    - Keys, separators and texts are strings of one Python string type
      (all [str], or all [unicode]).
    - The values of a record are dicts (type [dict] itself) and values
      that are not mappings, see [atom]; an object of another mapping
      type ([OrderedDict], [defaultdict], a class with item access of its
      own) is not a value of the embedding. *)

From stdpp Require Import gmap strings list fin_maps.
From Stdlib Require Import Ascii.

Local Open Scope string_scope.
Local Open Scope list_scope.

#[local] Set Warnings "-register-all,-clear-no-such-hyp".

(** ** Exceptions *)

Inductive exn :=
  | TypeError | ValueError | KeyError | IndexError | AttributeError.

Inductive outcome (A : Type) :=
  | Ok (a : A)
  | Raise (e : exn).
Arguments Ok {A} a.
Arguments Raise {A} e.

#[global] Instance outcome_ret : MRet outcome := λ A a, Ok a.
#[global] Instance outcome_bind : MBind outcome := λ A B f m,
  match m with
  | Ok a => f a
  | Raise e => Raise e
  end.

Definition is_Ok {A} (r : outcome A) : Prop := ∃ a, r = Ok a.

(** ** Strings: [+], [str.split] and [str.join] *)

Module Str.

Fixpoint drop (n : nat) (s : string) : string :=
  match n, s with
  | O, _ => s
  | S _, EmptyString => EmptyString
  | S n', String _ s' => drop n' s'
  end.

(** The first piece of a non-empty list of pieces grows by one
    character. *)
Definition push (c : Ascii.ascii) (pieces : list string) : list string :=
  match pieces with
  | [] => [String c EmptyString]
  | piece :: rest => String c piece :: rest
  end.

(** [s.split(sep)] for a non-empty [sep]: [s] is cut at the
    occurrences of [sep] found from the left, without overlap.
    [skip] counts the characters of a separator that has just been
    matched and is still to be passed over. *)
Fixpoint split_from (sep : string) (skip : nat) (s : string)
    : list string :=
  match s with
  | EmptyString => [EmptyString]
  | String c s' =>
      match skip with
      | S k => split_from sep k s'
      | O =>
          if String.prefix sep s
          then EmptyString :: split_from sep (String.length sep - 1) s'
          else push c (split_from sep 0 s')
      end
  end.

(** [s.split(sep)]; an empty separator raises [ValueError]. *)
Definition split (s sep : string) : outcome (list string) :=
  match sep with
  | EmptyString => Raise ValueError
  | _ => Ok (split_from sep 0 s)
  end.

(** [sep.join(pieces)]. *)
Fixpoint join (sep : string) (pieces : list string) : string :=
  match pieces with
  | [] => EmptyString
  | [piece] => piece
  | piece :: rest => piece +:+ sep +:+ join sep rest
  end.

(** Truth value of a string. *)
Definition truthy (s : string) : bool :=
  match s with
  | EmptyString => false
  | String _ _ => true
  end.

Lemma app_cons (c : Ascii.ascii) (s1 s2 : string) :
  String c s1 +:+ s2 = String c (s1 +:+ s2).
Proof. reflexivity. Qed.

Lemma app_empty_l (s : string) : "" +:+ s = s.
Proof. reflexivity. Qed.

Lemma app_empty_r (s : string) : s +:+ "" = s.
Proof.
  induction s as [|c s IH]; [done|]. by rewrite app_cons, IH.
Qed.

Lemma app_assoc (s1 s2 s3 : string) :
  s1 +:+ (s2 +:+ s3) = (s1 +:+ s2) +:+ s3.
Proof.
  induction s1 as [|c s1 IH]; [done|]. by rewrite !app_cons, IH.
Qed.

Lemma truthy_app_l (s1 s2 : string) :
  truthy s1 = true → truthy (s1 +:+ s2) = true.
Proof. by destruct s1. Qed.

Lemma prefix_drop (sep s : string) :
  String.prefix sep s = true → s = sep +:+ drop (String.length sep) s.
Proof.
  revert s. induction sep as [|a sep IH]; intros s Hp; [done|].
  destruct s as [|b s]; [done|]. cbn in Hp.
  destruct (Ascii.ascii_dec a b) as [->|]; [|done].
  cbn [String.length drop]. rewrite app_cons. f_equal. by apply IH.
Qed.

Lemma split_from_nonempty (sep : string) (skip : nat) (s : string) :
  split_from sep skip s ≠ [].
Proof.
  revert skip. induction s as [|c s IH]; intros skip; [done|].
  cbn [split_from]. destruct skip as [|k]; [|apply IH].
  destruct (String.prefix sep (String c s)); [done|].
  by destruct (split_from sep 0 s).
Qed.

Lemma join_cons (sep piece : string) (rest : list string) :
  rest ≠ [] → join sep (piece :: rest) = piece +:+ sep +:+ join sep rest.
Proof. by destruct rest. Qed.

Lemma join_push (sep : string) (c : Ascii.ascii) (pieces : list string) :
  pieces ≠ [] → join sep (push c pieces) = String c (join sep pieces).
Proof.
  destruct pieces as [|piece rest]; [done|]. intros _.
  by destruct rest.
Qed.

(** Joining the pieces of a split gives the string back. *)
Lemma join_split_from (sep : string) (skip : nat) (s : string) :
  sep ≠ "" → join sep (split_from sep skip s) = drop skip s.
Proof.
  intros Hsep. revert skip.
  induction s as [|c s IH]; intros skip; [by destruct skip|].
  cbn [split_from]. destruct skip as [|k]; [|by rewrite IH].
  destruct (String.prefix sep (String c s)) eqn:Hp.
  - rewrite join_cons by apply split_from_nonempty.
    rewrite IH. apply prefix_drop in Hp.
    destruct sep as [|a sep]; [done|].
    cbn [String.length drop] in *.
    replace (S (String.length sep) - 1) with (String.length sep) by lia.
    by rewrite app_empty_l, <-Hp.
  - rewrite join_push by apply split_from_nonempty. by rewrite IH.
Qed.

Lemma join_split (s sep : string) (pieces : list string) :
  split s sep = Ok pieces → join sep pieces = s.
Proof.
  intros Hs. assert (sep ≠ "") as Hsep by (by intros ->).
  unfold split in Hs. destruct sep; [done|].
  injection Hs as <-. by rewrite join_split_from.
Qed.

Lemma split_nonempty (s sep : string) (pieces : list string) :
  split s sep = Ok pieces → pieces ≠ [].
Proof.
  unfold split. destruct sep; [done|]. intros [= <-].
  apply split_from_nonempty.
Qed.

Lemma split_is_Ok (s sep : string) :
  sep ≠ "" → split s sep = Ok (split_from sep 0 s).
Proof. by destruct sep. Qed.

End Str.

Example split_dotted : Str.split "product.code" "." = Ok ["product"; "code"].
Proof. reflexivity. Qed.

Example split_edges : Str.split ".a..b." "." = Ok [""; "a"; ""; "b"; ""].
Proof. reflexivity. Qed.

Example split_long_separator : Str.split "a--b-c" "--" = Ok ["a"; "b-c"].
Proof. reflexivity. Qed.

(** ** [Field] *)

(** [class Field] of [base.py].  [C] is the type of the concrete
    (backend) storage type handle, which the class only carries. *)
Record Field {C : Type} := mkField {
  name : string;
  label : option string;
  storage_type : string;
  analytical_type : option string;
  concrete_storage_type : option C;
  missing_values : option (list string);
}.
Arguments Field : clear implicits.
Arguments mkField {C} _ _ _ _ _ _.

Definition storage_types : list string :=
  ["unknown"; "string"; "text"; "integer"; "float"; "boolean"; "date"].

Definition analytical_types : list string :=
  ["default"; "typeless"; "flag"; "discrete"; "range"; "set"; "ordered_set"].

Definition default_analytical_type : gmap string string :=
  <["unknown" := "typeless"]> (
  <["string" := "typeless"]> (
  <["text" := "typeless"]> (
  <["integer" := "discrete"]> (
  <["float" := "range"]> (
  <["date" := "typeless"]> ∅))))).

(** [Field.__init__] with its defaults: [Field(name)]. *)
Definition Field_init {C} (name : string) : Field C :=
  mkField name None "unknown" None None None.

Definition set_storage_type {C} (s : string) (f : Field C) : Field C :=
  mkField (name f) (label f) s (analytical_type f)
          (concrete_storage_type f) (missing_values f).

Definition set_analytical_type {C} (a : string) (f : Field C) : Field C :=
  mkField (name f) (label f) (storage_type f) (Some a)
          (concrete_storage_type f) (missing_values f).

Definition set_concrete_storage_type {C} (c : C) (f : Field C) : Field C :=
  mkField (name f) (label f) (storage_type f) (analytical_type f)
          (Some c) (missing_values f).

(** The parameters of [Field.__init__]. *)
Definition Field_parameters : list string :=
  ["name"; "label"; "storage_type"; "analytical_type";
   "concrete_storage_type"; "missing_values"].

(** [Field] called with the keyword dict [d] of strings: a key that is no parameter,
    or a missing [name], raises [TypeError].  ([fieldlist], the only
    caller, never sets [missing_values].) *)
Definition Field_kwargs (d : gmap string string) : outcome (Field string) :=
  if forallb (λ key, bool_decide (key ∈ Field_parameters)) (map_to_list d).*1
  then
    match d !! "name" with
    | None => Raise TypeError
    | Some n =>
        Ok (mkField n (d !! "label")
                    (default "unknown" (d !! "storage_type"))
                    (d !! "analytical_type")
                    (d !! "concrete_storage_type")
                    None)
    end
  else Raise TypeError.

(** ** [fieldlist] *)

(** A field description: a [str] or [unicode] name, a tuple, a dict, or
    an object of any other type. *)
Inductive description :=
  | DStr (s : string)
  | DTuple (t : list string)
  | DDict (o : gmap string string)
  | DOther.

(** [if key in obj: d[key] = obj[key]] *)
Definition copy_key (key : string) (obj d : gmap string string)
    : gmap string string :=
  match obj !! key with
  | Some v => <[key := v]> d
  | None => d
  end.

(** The keyword dict [d] that the loop body of [fieldlist] fills in. *)
Definition fieldlist_kwargs (obj : description)
    : outcome (gmap string string) :=
  let d : gmap string string :=
    <["analytical_type" := "typeless"]> (<["storage_type" := "unknown"]> ∅) in
  match obj with
  | DStr s => Ok (<["name" := s]> d)
  | DTuple t =>
      match t with
      | [] => Raise IndexError
      | n :: rest =>
          let d := <["name" := n]> d in
          match rest with
          | [] => Ok d
          | st :: rest' =>
              let d := <["storage_type" := st]> d in
              match rest' with
              | [] => Ok d
              | at_ :: _ => Ok (<["analytical_type" := at_]> d)
              end
          end
      end
  | DDict o =>
      match o !! "name" with
      | None => Raise KeyError
      | Some n =>
          let d := <["name" := n]> d in
          let d := copy_key "label" o d in
          let d := copy_key "storage_type" o d in
          let d := copy_key "analytical_type" o d in
          let d := copy_key "adapter_storage_type" o d in
          Ok d
      end
  | DOther => Raise ValueError
  end.

(** The loop body of [fieldlist].  The branch taken when [d] has no
    [analytical_type] reads [Field.default_analytical_types], an attribute
    the class does not have (the table is [default_analytical_type]). *)
Definition fieldlist_entry (obj : description) : outcome (Field string) :=
  d ← fieldlist_kwargs obj;
  d ← (if bool_decide (is_Some (d !! "analytical_type"))
       then Ok d else Raise AttributeError);
  Field_kwargs d.

Fixpoint fieldlist_loop (fields : list description)
    (a_list : list (Field string)) : outcome (list (Field string)) :=
  match fields with
  | [] => Ok a_list
  | obj :: rest =>
      f ← fieldlist_entry obj;
      fieldlist_loop rest (a_list ++ [f])
  end.

Definition fieldlist (fields : list description)
    : outcome (list (Field string)) :=
  fieldlist_loop fields [].

Example fieldlist_mixed :
  fieldlist [DStr "id"; DTuple ["amount"; "float"; "range"];
             DDict (<["name" := "city"]> (<["label" := "City"]> ∅))]
  = Ok [mkField "id" None "unknown" (Some "typeless") None None;
        mkField "amount" None "float" (Some "range") None None;
        mkField "city" (Some "City") "unknown" (Some "typeless") None None].
Proof. vm_compute. reflexivity. Qed.

Example fieldlist_empty_tuple : fieldlist [DTuple []] = Raise IndexError.
Proof. reflexivity. Qed.

Example fieldlist_adapter_storage_type :
  fieldlist [DDict (<["name" := "x"]> (<["adapter_storage_type" := "INT"]> ∅))]
  = Raise TypeError.
Proof. vm_compute. reflexivity. Qed.

(** ** Properties of [fieldlist] *)

(** The name a description gives, read off its shape. *)
Definition described_name (obj : description) : option string :=
  match obj with
  | DStr s => Some s
  | DTuple t => head t
  | DDict o => o !! "name"
  | DOther => None
  end.

(** Whether a description gives an analytical type itself: a third tuple
    element, or the key [analytical_type] of a dict. *)
Definition explicit_analytical_type (obj : description) : bool :=
  match obj with
  | DStr _ => false
  | DTuple t => bool_decide (2 < length t)
  | DDict o => bool_decide (is_Some (o !! "analytical_type"))
  | DOther => false
  end.

(** A description is accepted when the loop body does not raise on it. *)
Definition accepted (obj : description) : Prop := is_Ok (fieldlist_entry obj).

Definition keys_in (d : gmap string string) (keys : list string) : Prop :=
  ∀ key, is_Some (d !! key) → key ∈ keys.

Lemma keys_in_empty (keys : list string) : keys_in ∅ keys.
Proof. intros key [v Hv]. by rewrite lookup_empty in Hv. Qed.

Lemma keys_in_insert (d : gmap string string) (key v : string)
    (keys : list string) :
  key ∈ keys → keys_in d keys → keys_in (<[key := v]> d) keys.
Proof.
  intros Hkey Hd key' Hsome.
  destruct (decide (key = key')) as [<-|Hne]; [done|].
  rewrite lookup_insert_ne in Hsome by done. by apply Hd.
Qed.

Lemma keys_in_copy_key (o d : gmap string string) (key : string)
    (keys : list string) :
  key ∈ keys → keys_in d keys → keys_in (copy_key key o d) keys.
Proof.
  intros Hkey Hd. unfold copy_key.
  destruct (o !! key); [by apply keys_in_insert|done].
Qed.

Lemma Field_kwargs_check (d : gmap string string) :
  forallb (λ key, bool_decide (key ∈ Field_parameters)) (map_to_list d).*1
  = true ↔ keys_in d Field_parameters.
Proof.
  rewrite forallb_forall. split.
  - intros Hall key [v Hv]. specialize (Hall key).
    rewrite bool_decide_eq_true in Hall. apply Hall.
    apply list_elem_of_In, list_elem_of_fmap.
    exists (key, v). split; [done|]. by apply elem_of_map_to_list.
  - intros Hd key Hin. apply bool_decide_eq_true, Hd.
    apply list_elem_of_In, list_elem_of_fmap in Hin as [[key' v] [-> Hin]].
    apply elem_of_map_to_list in Hin. by exists v.
Qed.

Lemma Field_kwargs_Ok (d : gmap string string) (n : string) :
  keys_in d Field_parameters → d !! "name" = Some n →
  Field_kwargs d =
    Ok (mkField n (d !! "label") (default "unknown" (d !! "storage_type"))
                (d !! "analytical_type") (d !! "concrete_storage_type") None).
Proof.
  intros Hkeys Hname. unfold Field_kwargs.
  apply Field_kwargs_check in Hkeys. by rewrite Hkeys, Hname.
Qed.

Lemma Field_kwargs_unknown_key (d : gmap string string) (key : string) :
  is_Some (d !! key) → key ∉ Field_parameters →
  Field_kwargs d = Raise TypeError.
Proof.
  intros Hsome Hkey. unfold Field_kwargs.
  destruct (forallb _ _) eqn:Hall; [|done].
  apply Field_kwargs_check in Hall. by destruct Hkey; apply Hall.
Qed.

Lemma Field_kwargs_inv (d : gmap string string) (f : Field string) :
  Field_kwargs d = Ok f →
  d !! "name" = Some (name f) ∧ analytical_type f = d !! "analytical_type"
  ∧ storage_type f = default "unknown" (d !! "storage_type")
  ∧ d !! "adapter_storage_type" = None.
Proof.
  unfold Field_kwargs. destruct (forallb _ _) eqn:Hall; [|done].
  apply Field_kwargs_check in Hall.
  destruct (d !! "name") as [n|] eqn:Hname; [|done].
  intros [= <-]. repeat split.
  destruct (d !! "adapter_storage_type") eqn:Ha; [|done].
  assert ("adapter_storage_type" ∈ Field_parameters) as Hin
    by (apply Hall; eauto).
  by vm_compute in Hin; repeat (apply elem_of_cons in Hin as [?|Hin]; [done|]);
     apply elem_of_nil in Hin.
Qed.

Lemma lookup_copy_key (o d : gmap string string) (key key' : string) :
  copy_key key o d !! key' =
    if decide (key = key')
    then match o !! key with Some v => Some v | None => d !! key end
    else d !! key'.
Proof.
  unfold copy_key. destruct (decide (key = key')) as [<-|Hne].
  - destruct (o !! key); [by rewrite lookup_insert_eq|done].
  - destruct (o !! key); [by rewrite lookup_insert_ne|done].
Qed.

(** Closes a decidable goal by evaluation. *)
Ltac by_compute :=
  match goal with
  | |- ?P => apply (bool_decide_unpack P); vm_compute; exact I
  end.

Ltac solve_keys_in :=
  repeat first
    [ apply keys_in_empty
    | apply keys_in_copy_key; [by_compute|]
    | apply keys_in_insert; [by_compute|] ].

(** What the loop body knows about [d] before it calls [Field]. *)
Lemma fieldlist_kwargs_inv (obj : description) (d : gmap string string) :
  fieldlist_kwargs obj = Ok d →
  d !! "name" = described_name obj
  ∧ is_Some (d !! "name")
  ∧ is_Some (d !! "analytical_type")
  ∧ (explicit_analytical_type obj = false →
     d !! "analytical_type" = Some "typeless")
  ∧ (keys_in d Field_parameters ∨ is_Some (d !! "adapter_storage_type")).
Proof.
  destruct obj as [s|t|o|]; cbn [fieldlist_kwargs]; [| | |done].
  - intros [= <-]. repeat split; eauto.
    left. solve_keys_in.
  - destruct t as [|n [|st [|a rest]]]; [done|..]; intros [= <-].
    + repeat split; eauto. left.
      solve_keys_in.
    + repeat split; eauto. left.
      solve_keys_in.
    + repeat split; eauto.
      * cbn. intros Hex. apply bool_decide_eq_false in Hex.
        cbn in Hex. lia.
      * left. solve_keys_in.
  - destruct (o !! "name") as [n|] eqn:Hname; [|done]. intros [= <-].
    rewrite !lookup_copy_key. cbn [described_name].
    repeat (rewrite decide_False by done).
    rewrite !decide_True by done.
    repeat (rewrite lookup_insert_ne by done).
    rewrite !lookup_insert_eq. rewrite Hname.
    split; [done|]. split; [eauto|]. split; [|split].
    + destruct (o !! "analytical_type"); eauto.
    + cbn. intros Hex. apply bool_decide_eq_false in Hex.
      destruct (o !! "analytical_type"); [|done]. destruct Hex; eauto.
    + destruct (o !! "adapter_storage_type") as [a|] eqn:Ha.
      * right. eauto.
      * left. unfold copy_key at 1. rewrite Ha.
        solve_keys_in.
Qed.

Lemma fieldlist_entry_inv (obj : description) (f : Field string) :
  fieldlist_entry obj = Ok f →
  described_name obj = Some (name f)
  ∧ (explicit_analytical_type obj = false →
     analytical_type f = Some "typeless").
Proof.
  unfold fieldlist_entry.
  destruct (fieldlist_kwargs obj) as [d|e] eqn:Hd; [|done]. cbn.
  apply fieldlist_kwargs_inv in Hd as (Hname & _ & Hat & Htypeless & _).
  rewrite bool_decide_eq_true_2 by done. cbn. intros Hf.
  apply Field_kwargs_inv in Hf as (Hn & Ha & _ & _). split.
  - by rewrite <-Hname.
  - intros Hex. rewrite Ha. by apply Htypeless.
Qed.

Lemma fieldlist_kwargs_adapter (obj : description) (d : gmap string string) :
  fieldlist_kwargs obj = Ok d →
  d !! "adapter_storage_type" =
    match obj with
    | DDict o => o !! "adapter_storage_type"
    | _ => None
    end.
Proof.
  destruct obj as [s|t|o|]; cbn [fieldlist_kwargs]; [| | |done].
  - by intros [= <-].
  - by destruct t as [|? [|? [|? ?]]]; [done|..]; intros [= <-].
  - destruct (o !! "name") as [n|]; [|done]. intros [= <-].
    rewrite !lookup_copy_key. rewrite decide_True by done.
    repeat (rewrite decide_False by done).
    by destruct (o !! "adapter_storage_type").
Qed.

(** Which descriptions the loop body takes: every name, every non-empty
    tuple, and every dict that has [name] and lacks
    [adapter_storage_type] (which [Field.__init__] does not know). *)
Lemma accepted_shape (obj : description) :
  accepted obj ↔
    match obj with
    | DStr _ => True
    | DTuple t => t ≠ []
    | DDict o => is_Some (o !! "name") ∧ o !! "adapter_storage_type" = None
    | DOther => False
    end.
Proof.
  unfold accepted, is_Ok, fieldlist_entry. split.
  - intros [f Hf].
    destruct (fieldlist_kwargs obj) as [d|e] eqn:Hd; [|done]. cbn in Hf.
    destruct (bool_decide _); [|done]. cbn in Hf.
    apply Field_kwargs_inv in Hf as (_ & _ & _ & Hadapter).
    rewrite (fieldlist_kwargs_adapter _ _ Hd) in Hadapter.
    destruct obj as [s|t|o|]; cbn in Hd; [done| | |done].
    + by destruct t.
    + by destruct (o !! "name") as [n|] eqn:Hname; [|done].
  - intros Hshape.
    destruct (fieldlist_kwargs obj) as [d|e] eqn:Hd.
    + pose proof (fieldlist_kwargs_adapter _ _ Hd) as Hadapter.
      apply fieldlist_kwargs_inv in Hd as (_ & [n Hn] & Hat & _ & Hkeys).
      cbn. rewrite bool_decide_eq_true_2 by done. cbn.
      destruct Hkeys as [Hkeys|Hsome].
      * erewrite Field_kwargs_Ok by done. eauto.
      * rewrite Hadapter in Hsome.
        destruct obj as [s|t|o|]; try by apply is_Some_None in Hsome.
        destruct Hshape as [_ Hnone]. rewrite Hnone in Hsome.
        by apply is_Some_None in Hsome.
    + destruct obj as [s|t|o|]; cbn in Hd; [done| | |done].
      * by destruct t as [|? [|? [|? ?]]].
      * destruct Hshape as [[n Hn] _]. by rewrite Hn in Hd.
Qed.

(** The loop appends one [Field] per description, in order. *)
Lemma fieldlist_loop_spec (fields : list description)
    (a_list fs : list (Field string)) :
  fieldlist_loop fields a_list = Ok fs ↔
  ∃ new, fs = a_list ++ new
         ∧ Forall2 (λ obj f, fieldlist_entry obj = Ok f) fields new.
Proof.
  revert a_list. induction fields as [|obj rest IH]; intros a_list; cbn.
  - split.
    + intros [= <-]. exists []. by rewrite app_nil_r.
    + intros (new & -> & Hall). apply Forall2_nil_inv_l in Hall as ->.
      by rewrite app_nil_r.
  - destruct (fieldlist_entry obj) as [f|e] eqn:Hobj; cbn.
    + rewrite IH. split.
      * intros (new & -> & Hall). exists (f :: new).
        split; [by rewrite <-app_assoc|]. by constructor.
      * intros (new & -> & Hall).
        apply Forall2_cons_inv_l in Hall as (f' & new' & Hf' & Hall & ->).
        assert (f' = f) as -> by congruence.
        exists new'. split; [by rewrite <-app_assoc|done].
    + split; [done|]. intros (new & _ & Hall).
      apply Forall2_cons_inv_l in Hall as (f' & new' & Hf' & _ & _).
      congruence.
Qed.

Lemma fieldlist_spec (fields : list description) (fs : list (Field string)) :
  fieldlist fields = Ok fs ↔
  Forall2 (λ obj f, fieldlist_entry obj = Ok f) fields fs.
Proof.
  unfold fieldlist. rewrite fieldlist_loop_spec. split.
  - by intros (new & -> & Hall).
  - intros Hall. by exists fs.
Qed.

(** The descriptions [fieldlist] is meant for, by their shape alone: a
    name, a tuple that has at least the name, or a dict that has the key
    [name] and not the key [adapter_storage_type]. *)
Definition well_formed (obj : description) : Prop :=
  match obj with
  | DStr _ => True
  | DTuple t => t ≠ []
  | DDict o => is_Some (o !! "name") ∧ o !! "adapter_storage_type" = None
  | DOther => False
  end.

(** [fieldlist] returns exactly on the sequences of well-formed
    descriptions. *)
Lemma fieldlist_returns (fields : list description) :
  Forall well_formed fields ↔ is_Ok (fieldlist fields).
Proof.
  unfold is_Ok. setoid_rewrite fieldlist_spec. split.
  - induction 1 as [|obj rest Hobj _ [fs IH]].
    + exists []. constructor.
    + apply accepted_shape in Hobj as [f Hf].
      exists (f :: fs). by constructor.
  - intros [fs Hall]. induction Hall as [|obj f rest fs Hf _ IH].
    + constructor.
    + constructor; [|done]. apply accepted_shape. by exists f.
Qed.

(** C9. On every sequence of well-formed descriptions (names, non-empty
    tuples, dicts with [name] and without [adapter_storage_type])
    [fieldlist] returns a list that has one [Field] per description and
    the descriptions' names in the order of the input; names that occur
    twice stay twice. *)
Theorem fieldlist_keeps_order_and_count (fields : list description) :
  Forall well_formed fields →
  ∃ fs, fieldlist fields = Ok fs
        ∧ length fs = length fields
        ∧ Some ∘ name <$> fs = described_name <$> fields
        ∧ ∀ i obj, fields !! i = Some obj →
            ∃ f, fs !! i = Some f ∧ described_name obj = Some (name f).
Proof.
  intros Hfields. apply fieldlist_returns in Hfields as [fs Hfs].
  exists fs. split; [done|]. apply fieldlist_spec in Hfs.
  split; [symmetry; by eapply Forall2_length|]. split.
  - induction Hfs as [|obj f rest fs Hf _ IH]; [done|].
    cbn. f_equal; [|done].
    apply fieldlist_entry_inv in Hf as [Hname _]. by rewrite Hname.
  - intros i obj Hobj.
    destruct (Forall2_lookup_l _ _ _ _ _ Hfs Hobj) as (f & Hf & Hentry).
    exists f. split; [done|]. by apply fieldlist_entry_inv in Hentry as [? _].
Qed.

Lemma fieldlist_keeps_order_and_count_witness :
  ∃ fs, fieldlist [DStr "a"; DTuple ["b"; "integer"];
                   DDict (<["name" := "c"]> ∅); DStr "a"] = Ok fs
        ∧ length fs = 4
        ∧ Some ∘ name <$> fs = [Some "a"; Some "b"; Some "c"; Some "a"].
Proof.
  destruct (fieldlist_keeps_order_and_count
              [DStr "a"; DTuple ["b"; "integer"];
               DDict (<["name" := "c"]> ∅); DStr "a"])
    as (fs & Hfs & Hlen & Hnames & _).
  - repeat constructor; by vm_compute; eauto.
  - exists fs. split; [done|]. split; [done|]. exact Hnames.
Defined.

Example fieldlist_duplicate_names :
  name <$> default [] (match fieldlist [DStr "a"; DTuple ["b"]; DStr "a"] with
                       | Ok fs => Some fs | Raise _ => None end)
  = ["a"; "b"; "a"].
Proof. vm_compute. reflexivity. Qed.

(** C3, as the code has it.  A description that gives no analytical type
    yields a [Field] whose analytical type is [typeless], whatever its
    storage type. *)
Theorem fieldlist_implicit_analytical_type (fields : list description)
    (fs : list (Field string)) (i : nat) (obj : description)
    (f : Field string) :
  fieldlist fields = Ok fs →
  fields !! i = Some obj → fs !! i = Some f →
  explicit_analytical_type obj = false →
  analytical_type f = Some "typeless".
Proof.
  intros Hfs Hobj Hf Hex. apply fieldlist_spec in Hfs.
  pose proof (Forall2_lookup_lr _ _ _ _ _ _ Hfs Hobj Hf) as Hentry.
  apply fieldlist_entry_inv in Hentry as [_ Htypeless]. by apply Htypeless.
Qed.

Lemma fieldlist_implicit_analytical_type_witness :
  analytical_type (mkField (C := string) "x" None "float" (Some "typeless")
                           None None) = Some "typeless".
Proof.
  apply (fieldlist_implicit_analytical_type
           [DStr "id"; DDict (<["name" := "x"]> (<["storage_type" := "float"]> ∅))]
           [mkField "id" None "unknown" (Some "typeless") None None;
            mkField "x" None "float" (Some "typeless") None None]
           1 (DDict (<["name" := "x"]> (<["storage_type" := "float"]> ∅)))).
  - vm_compute. reflexivity.
  - reflexivity.
  - reflexivity.
  - vm_compute. reflexivity.
Defined.

(** C3, as the claim has it, fails: the tuple [('x', 'integer')] gives no
    analytical type, the default table maps [integer] to [discrete], and
    the [Field] is [typeless]. *)
Lemma fieldlist_integer_is_not_discrete :
  let obj := DTuple ["x"; "integer"] in
  ∃ f, fieldlist [obj] = Ok [f]
       ∧ explicit_analytical_type obj = false
       ∧ storage_type f = "integer"
       ∧ default_analytical_type !! storage_type f = Some "discrete"
       ∧ analytical_type f = Some "typeless"
       ∧ analytical_type f ≠ default_analytical_type !! storage_type f.
Proof.
  eexists. split; [vm_compute; reflexivity|].
  repeat split; try (vm_compute; reflexivity). by vm_compute.
Qed.

(** ** Records *)

(** A value that is not a mapping: [None], a [bool], an [int], a [float]
    (by its bits), a [unicode] or [str] text, or ([AOther], by its
    [repr]) an object of another type that has no item access by a
    string key, such as a [list], a [tuple], a [set], a [date] or a
    [Decimal].  On each of these [x[key]] and [x[key] = v] with a string
    [key] raise [TypeError], and so does [key in x] on those that are
    not containers.

    Objects of mapping types other than [dict] are left out on purpose:
    [collapse_record] takes them for leaves ([type(value) == dict] is
    false), while the walk of [expand_record], which tests no type,
    would step into them and change them in place. *)
Inductive atom :=
  | ANone
  | ABool (b : bool)
  | AInt (n : Z)
  | AFloat (bits : Z)
  | AText (s : string)
  | AOther (repr : string).

(** A value as the code meets it when it iterates: a dict is its
    [items()], in iteration order. *)
Inductive value :=
  | Leaf (a : atom)
  | Dict (items : list (string * value)).

(** A dict has each key once, at every level. *)
Inductive wf : value → Prop :=
  | wf_Leaf (a : atom) : wf (Leaf a)
  | wf_Dict (items : list (string * value)) :
      NoDup items.*1 → Forall (λ item, wf item.2) items → wf (Dict items).

Definition is_leaf (v : value) : Prop := ∃ a, v = Leaf a.

(** Induction on values that reaches the values inside a dict. *)
Fixpoint value_nested_ind (P : value → Prop)
    (Hleaf : ∀ a, P (Leaf a))
    (Hdict : ∀ items, Forall (λ item, P item.2) items → P (Dict items))
    (v : value) {struct v} : P v :=
  match v with
  | Leaf a => Hleaf a
  | Dict items =>
      Hdict items
        ((fix go (items : list (string * value))
            : Forall (λ item, P item.2) items :=
            match items with
            | [] => List.Forall_nil _
            | (key, v') :: rest =>
                @List.Forall_cons _ (λ item, P item.2) (key, v') rest
                  (value_nested_ind P Hleaf Hdict v') (go rest)
            end) items)
  end.

(** [dict(pairs)]: a later pair replaces an earlier one of the same
    key. *)
Definition dict_of {V} (pairs : list (string * V)) : gmap string V :=
  foldl (λ d pair, <[pair.1 := pair.2]> d) ∅ pairs.

(** ** [collapse_record] *)

(** [collapsed_key]: [root + separator + key] when [root] is true (not
    [None], not empty), and [key] otherwise. *)
Definition collapsed_key (separator : string) (root : option string)
    (key : string) : string :=
  match root with
  | Some r => if Str.truthy r then (r +:+ separator) +:+ key else key
  | None => key
  end.

(** [collapse_record] on a dict value; [result.update(collapsed)] is the
    union that prefers [collapsed]. *)
Fixpoint collapse_dict (separator : string) (root : option string)
    (record : value) {struct record} : gmap string value :=
  match record with
  | Leaf _ => ∅
  | Dict items =>
      (fix loop (items : list (string * value)) (result : gmap string value)
           {struct items} : gmap string value :=
         match items with
         | [] => result
         | (key, value) :: rest =>
             let collapsed_key := collapsed_key separator root key in
             match value with
             | Dict _ =>
                 let collapsed :=
                   collapse_dict separator (Some collapsed_key) value in
                 loop rest (collapsed ∪ result)
             | Leaf _ => loop rest (<[collapsed_key := value]> result)
             end
         end) items ∅
  end.

Definition collapse_record (record : list (string * value))
    (separator : string) (root : option string) : gmap string value :=
  collapse_dict separator root (Dict record).

(** One turn of the loop of [collapse_record]. *)
Definition collapse_step (separator : string) (root : option string)
    (result : gmap string value) (item : string * value)
    : gmap string value :=
  let collapsed_key := collapsed_key separator root item.1 in
  match item.2 with
  | Dict items =>
      collapse_record items separator (Some collapsed_key) ∪ result
  | Leaf _ => <[collapsed_key := item.2]> result
  end.

Lemma collapse_record_foldl (record : list (string * value))
    (separator : string) (root : option string) :
  collapse_record record separator root
  = foldl (collapse_step separator root) ∅ record.
Proof.
  unfold collapse_record. cbn [collapse_dict].
  generalize (∅ : gmap string value).
  induction record as [|[key v] rest IH]; intros result; [done|].
  cbn [foldl]. destruct v as [a|items]; apply IH.
Qed.

Example collapse_nested :
  collapse_record
    [("product", Dict [("code", Leaf (AInt 10)); ("name", Leaf (AText "tea"))]);
     ("year", Leaf (AInt 2010))] "." None
  = <["product.code" := Leaf (AInt 10)]> (
    <["product.name" := Leaf (AText "tea")]> (
    <["year" := Leaf (AInt 2010)]> ∅)).
Proof. vm_compute. reflexivity. Qed.

(** An empty key at the top is a false [root] one level down: its
    entries lose their prefix. *)
Example collapse_empty_key :
  collapse_record [("", Dict [("a", Leaf (AInt 1))])] "." None
  = <["a" := Leaf (AInt 1)]> ∅.
Proof. vm_compute. reflexivity. Qed.

(** ** Properties of [dict_of] *)

Lemma foldl_insert_union {V} (pairs : list (string * V)) (d : gmap string V) :
  foldl (λ d pair, <[pair.1 := pair.2]> d) d pairs = dict_of pairs ∪ d.
Proof.
  unfold dict_of. revert d.
  induction pairs as [|[key v] rest IH] using rev_ind; intros d.
  - cbn. by rewrite (left_id_L ∅ (∪)).
  - rewrite !foldl_app. cbn. rewrite IH. by rewrite insert_union_l.
Qed.

Lemma dict_of_snoc {V} (pairs : list (string * V)) (key : string) (v : V) :
  dict_of (pairs ++ [(key, v)]) = <[key := v]> (dict_of pairs).
Proof. unfold dict_of. by rewrite foldl_app. Qed.

Lemma dict_of_app {V} (xs ys : list (string * V)) :
  dict_of (xs ++ ys) = dict_of ys ∪ dict_of xs.
Proof.
  unfold dict_of at 1. rewrite foldl_app. apply foldl_insert_union.
Qed.

Lemma dict_of_cons {V} (key : string) (v : V) (pairs : list (string * V)) :
  dict_of ((key, v) :: pairs) = dict_of pairs ∪ {[key := v]}.
Proof.
  change ((key, v) :: pairs) with ([(key, v)] ++ pairs).
  rewrite dict_of_app. f_equal.
Qed.

(** Looking up in [dict_of]: the last pair of the key decides. *)
Lemma lookup_dict_of_snoc {V} (pairs : list (string * V)) (key key' : string)
    (v : V) :
  dict_of (pairs ++ [(key, v)]) !! key' =
    if decide (key = key') then Some v else dict_of pairs !! key'.
Proof. rewrite dict_of_snoc. apply lookup_insert. Qed.

Lemma dict_of_None {V} (pairs : list (string * V)) (key : string) :
  dict_of pairs !! key = None ↔ key ∉ pairs.*1.
Proof.
  induction pairs as [|[key' v] rest IH] using rev_ind.
  - unfold dict_of. cbn. rewrite lookup_empty. set_solver.
  - rewrite lookup_dict_of_snoc, fmap_app, elem_of_app. cbn.
    destruct (decide (key' = key)) as [->|Hne]; [set_solver|].
    rewrite IH. set_solver.
Qed.

(** When equal keys carry equal values, the order of the pairs does not
    show in the dict. *)
Lemma lookup_dict_of_functional {V} (pairs : list (string * V))
    (key : string) (v : V) :
  (∀ k v1 v2, (k, v1) ∈ pairs → (k, v2) ∈ pairs → v1 = v2) →
  dict_of pairs !! key = Some v ↔ (key, v) ∈ pairs.
Proof.
  induction pairs as [|[key' v'] rest IH] using rev_ind; intros Hfun.
  - unfold dict_of. cbn. rewrite lookup_empty. set_solver.
  - rewrite lookup_dict_of_snoc, elem_of_app, list_elem_of_singleton.
    assert (∀ k v1 v2, (k, v1) ∈ rest → (k, v2) ∈ rest → v1 = v2) as Hrest.
    { intros k v1 v2 H1 H2. apply (Hfun k); set_solver. }
    destruct (decide (key' = key)) as [->|Hne].
    + split.
      * intros [= ->]. by right.
      * intros [Hin|[= ->]]; [|done]. f_equal. apply (Hfun key); set_solver.
    + rewrite (IH Hrest). split; [by left|].
      intros [Hin|[= ? ?]]; [done|congruence].
Qed.

Lemma dict_of_NoDup {V} (pairs : list (string * V)) :
  NoDup pairs.*1 → dict_of pairs = list_to_map pairs.
Proof.
  intros Hnodup. apply map_eq. intros key. apply option_eq. intros v.
  rewrite <-elem_of_list_to_map by done.
  apply lookup_dict_of_functional. intros k v1 v2 H1 H2.
  apply (elem_of_list_to_map (M := gmap string)) in H1, H2; [|done..].
  congruence.
Qed.

(** ** Properties of [collapse_record] *)

(** No value of a collapsed record is a dict. *)
Lemma collapse_record_leaves (record : list (string * value))
    (separator : string) (root : option string) :
  map_Forall (λ _ v, is_leaf v) (collapse_record record separator root).
Proof.
  change (map_Forall (λ _ v, is_leaf v)
            (collapse_dict separator root (Dict record))).
  generalize (Dict record). clear record. intros v. revert root.
  induction v as [a|items IH] using value_nested_ind; intros root.
  - apply map_Forall_empty.
  - change (collapse_dict separator root (Dict items))
      with (collapse_record items separator root).
    rewrite collapse_record_foldl.
    assert (map_Forall (λ _ v, is_leaf v) (∅ : gmap string value)) as Hinit
      by apply map_Forall_empty.
    revert Hinit. generalize (∅ : gmap string value).
    induction IH as [|[key v] rest Hv _ IHrest]; intros result Hresult;
      [done|].
    cbn [foldl]. apply IHrest. unfold collapse_step. cbn [fst snd].
    destruct v as [a|nested].
    + apply map_Forall_insert_2; [by exists a|done].
    + apply map_Forall_union_2; [apply Hv|done].
Qed.

(** On a record without dict values, and with no [root], collapsing is
    [dict]. *)
Lemma collapse_record_flat (record : list (string * value))
    (separator : string) :
  Forall (λ item, is_leaf item.2) record →
  collapse_record record separator None = dict_of record.
Proof.
  intros Hflat. rewrite collapse_record_foldl. unfold dict_of.
  generalize (∅ : gmap string value).
  induction Hflat as [|[key v] rest [a Ha] _ IH]; intros result; [done|].
  cbn in Ha. subst v. cbn [foldl]. apply IH.
Qed.

(** C10. The values of [collapse_record(r, sep)] are not dicts, and
    collapsing it again, in whatever order its items are iterated, gives
    it back. *)
Theorem collapse_record_idempotent (r : list (string * value))
    (sep : string) :
  map_Forall (λ _ v, is_leaf v) (collapse_record r sep None)
  ∧ ∀ items : list (string * value),
      items ≡ₚ map_to_list (collapse_record r sep None) →
      collapse_record items sep None = collapse_record r sep None.
Proof.
  split; [apply collapse_record_leaves|]. intros items Hperm.
  rewrite collapse_record_flat.
  - rewrite dict_of_NoDup.
    + symmetry. by apply list_to_map_flip.
    + rewrite Hperm. apply NoDup_fst_map_to_list.
  - rewrite Hperm. apply Forall_forall. intros [key v] Hin.
    apply elem_of_map_to_list in Hin.
    by apply (collapse_record_leaves r sep None key v).
Qed.

Example collapse_twice :
  let once :=
    collapse_record
      [("a", Dict [("b", Leaf (AInt 1)); ("c", Dict [("d", Leaf ANone)])]);
       ("e", Leaf (AText "x"))] "." None in
  once = <["a.b" := Leaf (AInt 1)]> (<["a.c.d" := Leaf ANone]> (
         <["e" := Leaf (AText "x")]> ∅))
  ∧ collapse_record (map_to_list once) "." None = once
  ∧ collapse_record (reverse (map_to_list once)) "." None = once.
Proof. vm_compute. done. Qed.

(** ** [expand_record] *)

(** The nested dict that [expand_record] builds and returns. *)
Inductive tree :=
  | TLeaf (a : atom)
  | TNode (m : gmap string tree).

(** What a tree holds at a path of keys. *)
Fixpoint tget (p : list string) (t : tree) : option tree :=
  match p with
  | [] => Some t
  | key :: rest =>
      match t with
      | TNode m => m !! key ≫= tget rest
      | TLeaf _ => None
      end
  end.

(** The inner loop and the final assignment for one key:
    [parts] is [path[:-1]] and [final] is [path[-1]].  [current] walks
    down from [result], through the dicts that earlier keys made.

    The code tests no type on the way.  When [current[part]] is a leaf,
    [current] becomes that leaf and the very next operation on it
    raises [TypeError], for every [atom]:
    - with a further part, [part not in current] raises on [None], a
      [bool], a number or a [date] (not iterable); on a text, a [list],
      a [tuple] or a [set] it returns, and then [current[part] = {}] or
      [current[part]] raises (no item access by a string key);
    - with no further part, [current[path[-1]] = value] raises (no item
      assignment).
    A leaf is never a mapping (see [atom]), so the walk never steps into
    a value of the record. *)
Fixpoint set_path (parts : list string) (final : string) (value : atom)
    (current : gmap string tree) : outcome (gmap string tree) :=
  match parts with
  | [] => Ok (<[final := TLeaf value]> current)
  | part :: rest =>
      match current !! part with
      | None =>
          sub ← set_path rest final value ∅;
          Ok (<[part := TNode sub]> current)
      | Some (TNode sub) =>
          sub ← set_path rest final value sub;
          Ok (<[part := TNode sub]> current)
      | Some (TLeaf _) => Raise TypeError
      end
  end.

(** One turn of the loop over [record.items()]. *)
Definition expand_step (separator : string) (result : gmap string tree)
    (item : string * atom) : outcome (gmap string tree) :=
  path ← Str.split item.1 separator;
  match last path with
  | None => Raise IndexError
  | Some final => set_path (removelast path) final item.2 result
  end.

Fixpoint expand_loop (separator : string) (items : list (string * atom))
    (result : gmap string tree) : outcome (gmap string tree) :=
  match items with
  | [] => Ok result
  | item :: rest =>
      result ← expand_step separator result item;
      expand_loop separator rest result
  end.

(** [expand_record] on a flat record, given by its items. *)
Definition expand_record (record : list (string * atom))
    (separator : string) : outcome (gmap string tree) :=
  expand_loop separator record ∅.

Example expand_product :
  expand_record [("product.code", AInt 10); ("product.name", AText "tea");
                 ("year", AInt 2010)] "."
  = Ok (<["product" := TNode (<["code" := TLeaf (AInt 10)]> (
                              <["name" := TLeaf (AText "tea")]> ∅))]> (
        <["year" := TLeaf (AInt 2010)]> ∅)).
Proof. vm_compute. reflexivity. Qed.

Example expand_empty_separator :
  expand_record [("a", AInt 1)] "" = Raise ValueError.
Proof. reflexivity. Qed.

(** ** Properties of [set_path] *)

Lemma tget_leaf (p : list string) (a b : atom) :
  tget p (TLeaf a) = Some (TLeaf b) ↔ p = [] ∧ a = b.
Proof. destruct p; cbn; naive_solver. Qed.

Lemma tget_empty (p : list string) (a : atom) :
  tget p (TNode ∅) ≠ Some (TLeaf a).
Proof. destruct p; cbn; [done|]. by rewrite lookup_empty. Qed.

Lemma tget_cons (key : string) (rest : list string) (m : gmap string tree) :
  tget (key :: rest) (TNode m) = m !! key ≫= tget rest.
Proof. done. Qed.

(** The leaves after a successful [set_path]: the new one, and the old
    ones that do not lie under the new path. *)
Lemma tget_set_path (parts : list string) (final : string) (value : atom)
    (current current' : gmap string tree) (q : list string) (a : atom) :
  set_path parts final value current = Ok current' →
  tget q (TNode current') = Some (TLeaf a) ↔
    (q = parts ++ [final] ∧ a = value)
    ∨ (¬ (parts ++ [final]) `prefix_of` q
       ∧ tget q (TNode current) = Some (TLeaf a)).
Proof.
  revert current current' q.
  induction parts as [|part rest IH]; intros current current' q; cbn.
  - intros [= <-]. destruct q as [|key qs]; cbn.
    { split; [done|]. intros [[? _]|[_ ?]]; done. }
    destruct (decide (final = key)) as [<-|Hne].
    + rewrite lookup_insert_eq. cbn. rewrite tget_leaf. split.
      * intros [-> ->]. by left.
      * intros [[[= ->] ->]|[Hpre _]]; [done|].
        destruct Hpre. by apply prefix_cons, prefix_nil.
    + rewrite lookup_insert_ne by done. split.
      * intros Hq. right. split; [|done].
        intros Hpre. by apply prefix_cons_inv_1 in Hpre.
      * intros [[[= ? _] _]|[_ Hq]]; done.
  - intros Hset.
    assert (∃ sub0 sub, set_path rest final value sub0 = Ok sub
              ∧ current' = <[part := TNode sub]> current
              ∧ ∀ qs, tget qs (TNode sub0) = Some (TLeaf a) ↔
                      tget (part :: qs) (TNode current) = Some (TLeaf a))
      as (sub0 & sub & Hsub & -> & Hold).
    { destruct (current !! part) as [[b|sub0]|] eqn:Hpart; [done|..].
      - destruct (set_path rest final value sub0) as [sub|] eqn:Hsub;
          [|done].
        injection Hset as <-. exists sub0, sub. split; [done|]. split; [done|].
        intros qs. by rewrite tget_cons, Hpart.
      - destruct (set_path rest final value ∅) as [sub|] eqn:Hsub; [|done].
        injection Hset as <-. exists ∅, sub. split; [done|]. split; [done|].
        intros qs. rewrite tget_cons, Hpart. cbn. split; [|done].
        intros Hq. by apply tget_empty in Hq. }
    destruct q as [|key qs].
    { cbn. split; [done|]. intros [[? _]|[_ ?]]; done. }
    rewrite tget_cons. destruct (decide (part = key)) as [<-|Hne].
    + rewrite lookup_insert_eq. cbn. rewrite (IH _ _ _ Hsub), Hold.
      split.
      * intros [[-> ->]|[Hpre Hq]]; [by left|]. right. split; [|done].
        intros Hpre'. by apply prefix_cons_inv_2 in Hpre'.
      * intros [[[= ->] ->]|[Hpre Hq]]; [by left|]. right. split; [|done].
        intros Hpre'. destruct Hpre. by apply prefix_cons.
    + rewrite lookup_insert_ne by done. rewrite <-tget_cons. split.
      * intros Hq. right. split; [|done].
        intros Hpre. by apply prefix_cons_inv_1 in Hpre.
      * intros [[[= ? _] _]|[_ Hq]]; done.
Qed.

(** [set_path] raises nothing but [TypeError]. *)
Lemma set_path_Raise (parts : list string) (final : string) (value : atom)
    (current : gmap string tree) (e : exn) :
  set_path parts final value current = Raise e → e = TypeError.
Proof.
  revert current. induction parts as [|part rest IH]; intros current; cbn;
    [done|].
  destruct (current !! part) as [[b|sub0]|].
  - by intros [= <-].
  - destruct (set_path rest final value sub0) eqn:Hsub; [done|].
    intros [= <-]. by eapply IH.
  - destruct (set_path rest final value ∅) eqn:Hsub; [done|].
    intros [= <-]. by eapply IH.
Qed.

(** A leaf on the way raises. *)
Lemma set_path_blocked (parts : list string) (final : string) (value : atom)
    (current : gmap string tree) (q : list string) (a : atom) :
  q ≠ [] → q `prefix_of` parts →
  tget q (TNode current) = Some (TLeaf a) →
  set_path parts final value current = Raise TypeError.
Proof.
  revert current q. induction parts as [|part rest IH]; intros current q Hq.
  - intros Hpre. by apply prefix_nil_inv in Hpre.
  - destruct q as [|key qs]; [done|]. intros Hpre.
    pose proof (prefix_cons_inv_1 _ _ _ _ Hpre) as ->.
    apply prefix_cons_inv_2 in Hpre. rewrite tget_cons. cbn.
    destruct (current !! part) as [[b|sub0]|]; cbn; [done| |done].
    intros Hget. destruct qs as [|key' qs']; [done|].
    by rewrite (IH sub0 (key' :: qs')).
Qed.

(** Without a leaf on the way, [set_path] returns. *)
Lemma set_path_Ok (parts : list string) (final : string) (value : atom)
    (current : gmap string tree) :
  (∀ q a, q ≠ [] → q `prefix_of` parts →
          tget q (TNode current) ≠ Some (TLeaf a)) →
  is_Ok (set_path parts final value current).
Proof.
  revert current. induction parts as [|part rest IH]; intros current Hfree.
  - by eexists.
  - cbn. destruct (current !! part) as [[b|sub0]|] eqn:Hpart.
    + destruct (Hfree [part] b); [done|by apply prefix_cons, prefix_nil|].
      by rewrite tget_cons, Hpart.
    + destruct (IH sub0) as [sub ->]; [|by eexists].
      intros q a Hq Hpre Hget. apply (Hfree (part :: q) a); [done| |].
      * by apply prefix_cons.
      * by rewrite tget_cons, Hpart.
    + destruct (IH ∅) as [sub ->]; [|by eexists].
      intros q a _ _. apply tget_empty.
Qed.

(** ** Properties of the loop of [expand_record] *)

Lemma split_snoc (key separator : string) (path : list string) :
  Str.split key separator = Ok path →
  ∃ final, last path = Some final ∧ path = removelast path ++ [final].
Proof.
  intros Hsplit. apply Str.split_nonempty in Hsplit.
  destruct (last path) as [final|] eqn:Hlast.
  - exists final. split; [done|].
    apply last_Some in Hlast as [parts ->]. by rewrite removelast_last.
  - by apply last_None in Hlast.
Qed.

Lemma expand_step_set_path (separator key : string) (a : atom)
    (path : list string) (result : gmap string tree) :
  Str.split key separator = Ok path →
  ∃ parts final, path = parts ++ [final]
    ∧ expand_step separator result (key, a) = set_path parts final a result.
Proof.
  intros Hsplit. unfold expand_step. cbn [fst snd]. rewrite Hsplit. cbn.
  destruct (split_snoc _ _ _ Hsplit) as (final & -> & Hpath).
  by exists (removelast path), final.
Qed.

Lemma expand_step_Raise (separator : string) (item : string * atom)
    (result : gmap string tree) (e : exn) :
  separator ≠ "" → expand_step separator result item = Raise e →
  e = TypeError.
Proof.
  intros Hsep. destruct item as [key a].
  destruct (expand_step_set_path separator key a _ result
              (Str.split_is_Ok key separator Hsep))
    as (parts & final & _ & ->).
  apply set_path_Raise.
Qed.

Lemma expand_loop_Raise (separator : string) (items : list (string * atom))
    (result : gmap string tree) (e : exn) :
  separator ≠ "" → expand_loop separator items result = Raise e →
  e = TypeError.
Proof.
  intros Hsep. revert result.
  induction items as [|item rest IH]; intros result; cbn; [done|].
  destruct (expand_step separator result item) as [result'|e'] eqn:Hstep;
    cbn.
  - apply IH.
  - intros [= <-]. by eapply expand_step_Raise.
Qed.

Lemma expand_loop_app (separator : string) (xs ys : list (string * atom))
    (result : gmap string tree) :
  expand_loop separator (xs ++ ys) result
  = expand_loop separator xs result ≫= expand_loop separator ys.
Proof.
  revert result. induction xs as [|item rest IH]; intros result; cbn;
    [done|].
  destruct (expand_step separator result item); cbn; [apply IH|done].
Qed.

(** A leaf sits on the way to [p]. *)
Definition blocked (result : gmap string tree) (p : list string) : Prop :=
  ∃ q a, q ≠ [] ∧ q `prefix_of` p
         ∧ tget q (TNode result) = Some (TLeaf a).

Lemma blocked_step (separator : string) (item : string * atom)
    (result result' : gmap string tree) (p : list string) :
  expand_step separator result item = Ok result' →
  blocked result p → blocked result' p.
Proof.
  destruct item as [key a]. intros Hstep (q & b & Hq & Hpre & Hget).
  destruct (Str.split key separator) as [path|e] eqn:Hsplit;
    [|by unfold expand_step in Hstep; cbn in Hstep; rewrite Hsplit in Hstep].
  destruct (expand_step_set_path _ _ a _ result Hsplit)
    as (parts & final & -> & Heq).
  rewrite Heq in Hstep.
  destruct (decide ((parts ++ [final]) `prefix_of` q)) as [Hunder|Hnot].
  - exists (parts ++ [final]), a. split; [by destruct parts|].
    split; [by etrans|].
    apply (tget_set_path _ _ _ _ _ _ _ Hstep). by left.
  - exists q, b. split; [done|]. split; [done|].
    apply (tget_set_path _ _ _ _ _ _ _ Hstep). by right.
Qed.

Lemma expand_loop_blocked (separator : string)
    (items : list (string * atom)) (result : gmap string tree)
    (p1 p2 : list string) (k2 : string) (a2 : atom) :
  separator ≠ "" → blocked result p1 →
  (k2, a2) ∈ items → Str.split k2 separator = Ok p2 →
  p1 `prefix_of` p2 → p1 ≠ p2 →
  expand_loop separator items result = Raise TypeError.
Proof.
  intros Hsep Hblocked Hin Hsplit Hpre Hne. revert result Hblocked.
  induction items as [|item rest IH]; intros result Hblocked.
  { by apply elem_of_nil in Hin. }
  cbn. destruct (expand_step separator result item) as [result'|e] eqn:Hstep;
    cbn.
  - apply elem_of_cons in Hin as [<-|Hin].
    + exfalso. destruct Hblocked as (q & b & Hq & Hqpre & Hget).
      destruct (expand_step_set_path _ _ a2 _ result Hsplit)
        as (parts & final & -> & Heq).
      rewrite Heq in Hstep.
      rewrite (set_path_blocked parts final a2 result q b) in Hstep;
        [done..| |done].
      destruct Hpre as [ext Hext].
      destruct (decide (ext = [])) as [->|Hext'].
      { by rewrite app_nil_r in Hext. }
      apply exists_last in Hext' as (ext' & final' & ->).
      rewrite app_assoc in Hext. apply app_inj_tail in Hext as [-> _].
      etrans; [done|]. by apply prefix_app_r.
    + apply IH; [done|]. by eapply blocked_step.
  - f_equal. by eapply expand_step_Raise.
Qed.

(** The values whose item access the language itself fixes: [None],
    booleans, numbers and texts. *)
Definition scalar (a : atom) : Prop :=
  match a with
  | ANone | ABool _ | AInt _ | AFloat _ | AText _ => True
  | AOther _ => False
  end.

(** C7, as the code has it.  In a record whose values are [None],
    booleans, numbers or texts, when the key whose path is the prefix is
    iterated before the key whose path is longer, the walk for the longer
    key meets the leaf and [expand_record] raises [TypeError]. *)
Theorem expand_record_prefix_first (record : list (string * atom))
    (sep : string) (i j : nat) (k1 k2 : string) (a1 a2 : atom)
    (p1 p2 : list string) :
  Forall (λ item, scalar item.2) record →
  record !! i = Some (k1, a1) → record !! j = Some (k2, a2) → i < j →
  Str.split k1 sep = Ok p1 → Str.split k2 sep = Ok p2 →
  p1 `prefix_of` p2 → p1 ≠ p2 →
  expand_record record sep = Raise TypeError.
Proof.
  intros _ Hi Hj Hij Hp1 Hp2 Hpre Hne.
  assert (sep ≠ "") as Hsep by (by intros ->).
  unfold expand_record.
  rewrite <-(take_drop_middle record i (k1, a1)) by done.
  rewrite expand_loop_app.
  destruct (expand_loop sep (take i record) ∅) as [result|e] eqn:Hfirst;
    cbn; [|f_equal; by eapply expand_loop_Raise].
  destruct (expand_step sep result (k1, a1)) as [result'|e] eqn:Hstep;
    cbn; [|f_equal; by eapply expand_step_Raise].
  apply (expand_loop_blocked sep _ result' p1 p2 k2 a2); try done.
  - destruct (expand_step_set_path _ _ a1 _ result Hp1)
      as (parts & final & -> & Heq).
    rewrite Heq in Hstep. exists (parts ++ [final]), a1.
    split; [by destruct parts|]. split; [done|].
    apply (tget_set_path _ _ _ _ _ _ _ Hstep). by left.
  - apply list_elem_of_lookup. exists (j - S i).
    rewrite lookup_drop. rewrite <-Hj. f_equal. lia.
Qed.

Lemma expand_record_prefix_first_witness :
  expand_record [("a", AInt 1); ("b", ANone); ("a.c", AInt 2)] "."
  = Raise TypeError.
Proof.
  apply (expand_record_prefix_first _ "." 0 2 "a" "a.c" (AInt 1) (AInt 2)
           ["a"] ["a"; "c"]).
  - repeat constructor.
  - reflexivity.
  - reflexivity.
  - lia.
  - reflexivity.
  - reflexivity.
  - by exists ["c"].
  - discriminate.
Defined.

(** C7, as the claim has it, fails: with the longer key iterated first,
    [expand_record] builds the nested dict, then overwrites it with the
    leaf of the shorter key, and returns. *)
Lemma expand_record_longer_key_first :
  let record := [("a.b", AInt 2); ("a", AInt 1)] in
  Forall (λ item, scalar item.2) record
  ∧ Str.split "a" "." = Ok ["a"]
  ∧ Str.split "a.b" "." = Ok ["a"; "b"]
  ∧ ["a"] `prefix_of` ["a"; "b"]
  ∧ expand_record record "." = Ok (<["a" := TLeaf (AInt 1)]> ∅).
Proof.
  split; [repeat constructor|].
  repeat split; try (vm_compute; reflexivity). by exists ["b"].
Qed.

(** ** From iterated dicts to the dicts they are *)

(** The nested dict whose iteration shows as [v]. *)
Fixpoint denote (v : value) : tree :=
  match v with
  | Leaf a => TLeaf a
  | Dict items =>
      TNode (list_to_map
               ((fix go (items : list (string * value)) :=
                   match items with
                   | [] => []
                   | (key, v') :: rest => (key, denote v') :: go rest
                   end) items))
  end.

Definition items_tree (items : list (string * value)) : gmap string tree :=
  list_to_map (prod_map id denote <$> items).

Lemma denote_Dict (items : list (string * value)) :
  denote (Dict items) = TNode (items_tree items).
Proof.
  unfold items_tree. cbn [denote]. do 2 f_equal.
  induction items as [|[key v] rest IH]; [done|]. cbn. by f_equal.
Qed.

(** The leaves of a value with the keys that lead to them, in the order
    in which a walk through the items meets them. *)
Fixpoint value_paths (v : value) : list (list string * atom) :=
  match v with
  | Leaf a => [([], a)]
  | Dict items =>
      (fix go (items : list (string * value)) :=
         match items with
         | [] => []
         | (key, v') :: rest =>
             (prod_map (cons key) id <$> value_paths v') ++ go rest
         end) items
  end.

Lemma value_paths_cons (key : string) (v : value)
    (rest : list (string * value)) :
  value_paths (Dict ((key, v) :: rest))
  = (prod_map (cons key) id <$> value_paths v) ++ value_paths (Dict rest).
Proof. done. Qed.

Lemma elem_of_value_paths_Dict (items : list (string * value))
    (p : list string) (a : atom) :
  (p, a) ∈ value_paths (Dict items) ↔
  ∃ key v rest, p = key :: rest ∧ (key, v) ∈ items
                ∧ (rest, a) ∈ value_paths v.
Proof.
  induction items as [|[key v] items IH].
  - cbn. split; [by intros ?%elem_of_nil|].
    by intros (? & ? & ? & _ & ?%elem_of_nil & _).
  - rewrite value_paths_cons, elem_of_app, IH, list_elem_of_fmap. split.
    + intros [([rest b] & [= -> ->] & Hin)|(key' & v' & rest & -> & Hin & Hp)].
      * exists key, v, rest. split; [done|]. split; [by left|done].
      * exists key', v', rest. split; [done|]. split; [by right|done].
    + intros (key' & v' & rest & -> & Hin & Hp).
      apply elem_of_cons in Hin as [[= -> ->]|Hin].
      * left. by exists (rest, a).
      * right. by exists key', v', rest.
Qed.

Lemma lookup_items_tree (items : list (string * value)) (key : string)
    (t : tree) :
  NoDup items.*1 →
  items_tree items !! key = Some t ↔ ∃ v, (key, v) ∈ items ∧ t = denote v.
Proof.
  intros Hnodup. unfold items_tree.
  rewrite <-elem_of_list_to_map.
  - rewrite list_elem_of_fmap. split.
    + intros ([key' v] & [= -> ->] & Hin). by exists v.
    + intros (v & Hin & ->). by exists (key, v).
  - rewrite <-list_fmap_compose.
    by replace (fst ∘ prod_map id denote) with (@fst string value).
Qed.

(** The leaves met on a walk are the leaves of the dict. *)
Lemma value_paths_tget (v : value) (p : list string) (a : atom) :
  wf v → (p, a) ∈ value_paths v ↔ tget p (denote v) = Some (TLeaf a).
Proof.
  revert p. induction v as [b|items IH] using value_nested_ind;
    intros p Hwf.
  - cbn [value_paths denote]. rewrite tget_leaf, list_elem_of_singleton.
    naive_solver.
  - inversion Hwf as [|items' Hnodup Hall]; subst.
    rewrite elem_of_value_paths_Dict, denote_Dict.
    destruct p as [|key rest].
    { cbn. split; [by intros (? & ? & ? & ? & _)|done]. }
    rewrite tget_cons. split.
    + intros (key' & v & rest' & [= <- <-] & Hin & Hp).
      assert (items_tree items !! key = Some (denote v)) as ->.
      { apply lookup_items_tree; [done|]. by exists v. }
      cbn. rewrite Forall_forall in IH, Hall.
      by apply (IH (key, v) Hin rest (Hall (key, v) Hin)).
    + destruct (items_tree items !! key) as [t|] eqn:Hkey; [|done]. cbn.
      apply lookup_items_tree in Hkey as (v & Hin & ->); [|done].
      intros Hget. exists key, v, rest. split; [done|]. split; [done|].
      rewrite Forall_forall in IH, Hall.
      by apply (IH (key, v) Hin rest (Hall (key, v) Hin)).
Qed.

(** The key that [collapse_record] gives the leaf at path [p], with
    [root] the prefix of the enclosing call. *)
Fixpoint key_of_path (separator : string) (root : option string)
    (p : list string) : string :=
  match p with
  | [] => default "" root
  | key :: rest =>
      key_of_path separator (Some (collapsed_key separator root key)) rest
  end.

Definition collapsed_pairs (separator : string) (root : option string)
    (v : value) : list (string * value) :=
  (λ leaf, (key_of_path separator root leaf.1, Leaf leaf.2))
    <$> value_paths v.

Lemma collapsed_pairs_cons (separator : string) (root : option string)
    (key : string) (v : value) (rest : list (string * value)) :
  collapsed_pairs separator root (Dict ((key, v) :: rest))
  = collapsed_pairs separator
      (Some (collapsed_key separator root key)) v
    ++ collapsed_pairs separator root (Dict rest).
Proof.
  unfold collapsed_pairs. rewrite value_paths_cons, fmap_app. f_equal.
  rewrite <-list_fmap_compose. apply list_fmap_ext. by intros _ [p a] _.
Qed.

Lemma collapse_dict_pairs (separator : string) (v : value) :
  match v with
  | Leaf _ => True
  | Dict items =>
      ∀ root, collapse_record items separator root
              = dict_of (collapsed_pairs separator root (Dict items))
  end.
Proof.
  induction v as [a|items IH] using value_nested_ind; [done|].
  intros root. rewrite collapse_record_foldl.
  enough (∀ result, foldl (collapse_step separator root) result items
            = dict_of (collapsed_pairs separator root (Dict items)) ∪ result)
    as Hgen.
  { rewrite Hgen. by rewrite (right_id_L ∅ (∪)). }
  induction IH as [|[key v] rest Hv _ IHrest]; intros result.
  { cbn. by rewrite (left_id_L ∅ (∪)). }
  cbn [foldl]. rewrite IHrest, collapsed_pairs_cons, dict_of_app.
  rewrite <-(assoc_L (∪)). f_equal.
  unfold collapse_step. cbn [fst snd]. destruct v as [a|nested].
  - unfold collapsed_pairs. cbn. unfold dict_of. cbn.
    by rewrite insert_union_singleton_l, insert_empty.
  - f_equal. apply Hv.
Qed.

(** [collapse_record] is [dict] of the leaves in walking order, each
    under its collapsed key. *)
Lemma collapse_record_pairs (items : list (string * value))
    (separator : string) (root : option string) :
  collapse_record items separator root
  = dict_of (collapsed_pairs separator root (Dict items)).
Proof. apply (collapse_dict_pairs separator (Dict items)). Qed.

(** Under a true [root] the collapsed key is the joined path. *)
Lemma key_of_path_root (separator root : string) (p : list string) :
  Str.truthy root = true →
  key_of_path separator (Some root) p
  = match p with
    | [] => root
    | _ => root +:+ separator +:+ Str.join separator p
    end.
Proof.
  revert root. induction p as [|key rest IH]; intros root Hroot; [done|].
  cbn [key_of_path collapsed_key]. rewrite Hroot, IH.
  - destruct rest as [|key' rest'].
    + cbn. by rewrite Str.app_assoc.
    + rewrite (Str.join_cons _ key) by done.
      by rewrite !Str.app_assoc.
  - by do 2 apply Str.truthy_app_l.
Qed.

Lemma key_of_path_join (separator : string) (p : list string) :
  head p ≠ Some "" → p ≠ [] →
  key_of_path separator None p = Str.join separator p.
Proof.
  destruct p as [|key rest]; [done|]. intros Hhead _.
  cbn [key_of_path collapsed_key]. rewrite key_of_path_root.
  - by destruct rest.
  - destruct key; [by destruct Hhead|done].
Qed.

(** The flat record as a dict. *)
Definition flat_dict (r : list (string * atom)) : gmap string value :=
  list_to_map (prod_map id Leaf <$> r).

Section roundtrip.

Variable sep : string.
Variable r : list (string * atom).

Hypothesis keys_distinct : NoDup r.*1.

Hypothesis no_empty_segment :
  ∀ key, key ∈ r.*1 → ∃ path, Str.split key sep = Ok path ∧ "" ∉ path.

Hypothesis no_collision :
  ∀ k1 k2 p1 p2, k1 ∈ r.*1 → k2 ∈ r.*1 → k1 ≠ k2 →
    Str.split k1 sep = Ok p1 → Str.split k2 sep = Ok p2 →
    ¬ p1 `prefix_of` p2.

(** The leaves of [result] are the items of [done], each at the path of
    its key. *)
Definition leaves_of (done : list (string * atom))
    (result : gmap string tree) : Prop :=
  ∀ q a, tget q (TNode result) = Some (TLeaf a) ↔
         ∃ key, (key, a) ∈ done ∧ Str.split key sep = Ok q.

Lemma expand_loop_leaves (todo done : list (string * atom))
    (result : gmap string tree) :
  r = done ++ todo → leaves_of done result →
  ∃ result', expand_loop sep todo result = Ok result'
             ∧ leaves_of r result'.
Proof.
  revert done result.
  induction todo as [|[key a] todo IH]; intros done result Hr Hleaves.
  { exists result. rewrite app_nil_r in Hr. by subst. }
  assert (key ∈ r.*1) as Hkey.
  { rewrite Hr, fmap_app. set_solver. }
  assert (∀ key' b, (key', b) ∈ done → key' ∈ r.*1 ∧ key' ≠ key) as Hdone.
  { intros key' b Hin. pose proof keys_distinct as Hnodup.
    rewrite Hr, fmap_app in Hnodup |- *.
    apply NoDup_app in Hnodup as (_ & Hdisj & _).
    assert (key' ∈ done.*1) as Hin'.
    { apply list_elem_of_fmap. by exists (key', b). }
    split; [set_solver|]. intros ->. apply (Hdisj key Hin'). set_solver. }
  destruct (no_empty_segment key Hkey) as (path & Hsplit & _).
  destruct (expand_step_set_path sep key a path result Hsplit)
    as (parts & final & -> & Hstep).
  destruct (set_path_Ok parts final a result) as [result1 Hset].
  { intros q b Hq Hpre Hget. apply Hleaves in Hget as (key' & Hin & Hq').
    destruct (Hdone key' b Hin) as [Hin' Hne].
    apply (no_collision key' key q (parts ++ [final])); try done.
    by apply prefix_app_r. }
  cbn [expand_loop]. rewrite Hstep, Hset. cbn.
  apply (IH (done ++ [(key, a)])); [by rewrite <-app_assoc|].
  intros q b. rewrite (tget_set_path _ _ _ _ _ _ _ Hset). split.
  - intros [[-> ->]|[_ Hget]].
    + exists key. split; [set_solver|done].
    + apply Hleaves in Hget as (key' & Hin & Hq).
      exists key'. split; [set_solver|done].
  - intros (key' & Hin & Hq).
    apply elem_of_app in Hin as [Hin|Hin].
    + right. destruct (Hdone key' b Hin) as [Hin' Hne]. split.
      * by apply (no_collision key key' (parts ++ [final]) q).
      * apply Hleaves. by exists key'.
    + apply list_elem_of_singleton in Hin as [= -> ->]. left.
      split; [congruence|done].
Qed.

Lemma expand_record_leaves :
  ∃ t, expand_record r sep = Ok t ∧ leaves_of r t.
Proof.
  apply (expand_loop_leaves r []); [done|].
  intros q a. split.
  - intros Hget. by apply tget_empty in Hget.
  - by intros (key & Hin%elem_of_nil & _).
Qed.

(** C2. For a flat record [r] of distinct keys whose paths have no empty
    segment and do not collide, [expand_record(r, sep)] returns a nested
    dict, and [collapse_record] of that dict, in whatever order its items
    are iterated at each level, is [r]. *)
Theorem collapse_expand_roundtrip :
  ∃ t, expand_record r sep = Ok t
       ∧ ∀ items, wf (Dict items) → items_tree items = t →
                  collapse_record items sep None = flat_dict r.
Proof.
  destruct expand_record_leaves as (t & Ht & Hleaves).
  exists t. split; [done|]. intros items Hwf Hitems.
  assert (∀ key v, (key, v) ∈ collapsed_pairs sep None (Dict items)
                   ↔ (key, v) ∈ prod_map id Leaf <$> r) as Hpairs.
  { intros key v. unfold collapsed_pairs. rewrite !list_elem_of_fmap. split.
    - intros ([p a] & [= -> ->] & Hin). cbn [fst snd].
      apply value_paths_tget in Hin; [|done].
      rewrite denote_Dict, Hitems in Hin.
      apply Hleaves in Hin as (key & Hin & Hsplit).
      exists (key, a). split; [|done]. cbn. f_equal.
      assert (key ∈ r.*1) as Hkey.
      { apply list_elem_of_fmap. by exists (key, a). }
      destruct (no_empty_segment key Hkey) as (path & Hsplit' & Hseg).
      assert (path = p) as -> by congruence.
      rewrite key_of_path_join.
      + by apply Str.join_split.
      + destruct p as [|seg rest]; [done|]. cbn. intros [= ->].
        apply Hseg. by left.
      + by eapply Str.split_nonempty.
    - intros ([key' a] & [= -> ->] & Hin).
      assert (key' ∈ r.*1) as Hkey.
      { apply list_elem_of_fmap. by exists (key', a). }
      destruct (no_empty_segment key' Hkey) as (path & Hsplit & Hseg).
      exists (path, a). cbn [fst snd]. split.
      + f_equal. rewrite key_of_path_join.
        * symmetry. by apply Str.join_split.
        * destruct path as [|seg rest]; [done|]. cbn. intros [= ->].
          apply Hseg. by left.
        * by eapply Str.split_nonempty.
      + apply value_paths_tget; [done|].
        rewrite denote_Dict, Hitems. apply Hleaves. by exists key'. }
  assert (NoDup (prod_map id Leaf <$> r).*1) as Hnodup.
  { rewrite <-list_fmap_compose.
    by replace (fst ∘ prod_map id Leaf) with (@fst string atom). }
  rewrite collapse_record_pairs. unfold flat_dict.
  apply map_eq. intros key. apply option_eq. intros v.
  rewrite <-elem_of_list_to_map by done. rewrite <-Hpairs.
  apply lookup_dict_of_functional. intros k v1 v2 H1 H2.
  apply Hpairs in H1, H2.
  apply (elem_of_list_to_map (M := gmap string)) in H1, H2; [|done..].
  congruence.
Qed.

End roundtrip.

(** Splits a membership in a literal list into its cases. *)
Ltac elem_cases H :=
  repeat (apply elem_of_cons in H as [->|H]); [..|by apply elem_of_nil in H].

Lemma collapse_expand_roundtrip_witness :
  collapse_record
    [("d", Leaf (AText "x"));
     ("a", Dict [("c", Leaf (AInt 2)); ("b", Leaf (AInt 1))])] "." None
  = flat_dict [("a.b", AInt 1); ("a.c", AInt 2); ("d", AText "x")].
Proof.
  destruct (collapse_expand_roundtrip "."
              [("a.b", AInt 1); ("a.c", AInt 2); ("d", AText "x")])
    as (t & Ht & Hcollapse).
  - by_compute.
  - intros key Hin. cbn in Hin.
    elem_cases Hin; (eexists; split; [reflexivity|by_compute]).
  - intros k1 k2 p1 p2 H1 H2 Hne Hp1 Hp2. cbn in H1, H2.
    elem_cases H1; elem_cases H2; try done;
      vm_compute in Hp1; vm_compute in Hp2;
      injection Hp1 as <-; injection Hp2 as <-; by_compute.
  - apply Hcollapse.
    + constructor; [by_compute|].
      repeat constructor; cbn; by_compute.
    + vm_compute in Ht. injection Ht as <-. vm_compute. reflexivity.
Defined.

(** ** [brewery.dq.FieldTypeProbe] *)

(** Modelled from the spec: the class [FieldTypeProbe] of [brewery.dq] is
    not among the sources.  The kinds of value a probe tells apart. *)
Inductive kind :=
  | KNull | KBoolean | KInteger | KFloat | KText | KOther.

#[global] Instance kind_eq_dec : EqDecision kind.
Proof. solve_decision. Defined.

Definition kind_to_nat (k : kind) : nat :=
  match k with
  | KNull => 0 | KBoolean => 1 | KInteger => 2
  | KFloat => 3 | KText => 4 | KOther => 5
  end.

Definition kind_of_nat (n : nat) : kind :=
  match n with
  | 0 => KNull | 1 => KBoolean | 2 => KInteger
  | 3 => KFloat | 4 => KText | _ => KOther
  end.

#[global] Instance kind_countable : Countable kind :=
  inj_countable' kind_to_nat kind_of_nat
    (λ k, match k with
          | KNull | KBoolean | KInteger | KFloat | KText | KOther => eq_refl
          end).

(** Modelled from the spec: the kind of a probed value; a dict that is
    probed as a whole is of kind other. *)
Definition classify (v : value) : kind :=
  match v with
  | Leaf ANone => KNull
  | Leaf (ABool _) => KBoolean
  | Leaf (AInt _) => KInteger
  | Leaf (AFloat _) => KFloat
  | Leaf (AText _) => KText
  | Leaf (AOther _) => KOther
  | Dict _ => KOther
  end.

(** Modelled from the spec: the accumulator, a field name and the set of
    kinds seen. *)
Record FieldTypeProbe := mkProbe {
  field : string;
  observed : gset kind;
}.

(** Modelled from the spec: [FieldTypeProbe(full_key)] has seen
    nothing. *)
Definition FieldTypeProbe_init (full_key : string) : FieldTypeProbe :=
  mkProbe full_key ∅.

(** Modelled from the spec: [probe.probe(value)] adds the kind of
    [value]. *)
Definition probe (p : FieldTypeProbe) (v : value) : FieldTypeProbe :=
  mkProbe (field p) ({[classify v]} ∪ observed p).

(** Modelled from the spec: [probe.unique_storage_type] reports the one
    kind other than null that was seen, and is [None] when there is no
    such kind or more than one.  Neither the spec nor the sources say
    under which name the probe reports a kind ([read_fields] only
    compares the result with ['unicode']), so the naming [kind_name] is
    a parameter of the embedding. *)
Definition unique_storage_type (kind_name : kind → string)
    (p : FieldTypeProbe) : option string :=
  match elements (observed p ∖ {[KNull]}) with
  | [k] => Some (kind_name k)
  | _ => None
  end.

(** ** [DataSource.read_fields] *)

(** [keys] and [probes], the two variables that [probe_record] closes
    over. *)
Record probing := mkProbing {
  keys : list string;
  probes : gmap string FieldTypeProbe;
}.

(** The part of the loop body of [probe_record] after the [continue]:
    find or create the probe of [full_key], and probe [v]. *)
Definition probe_leaf (full_key : string) (v : value) (st : probing)
    : probing :=
  match probes st !! full_key with
  | None =>
      let p := FieldTypeProbe_init full_key in
      mkProbing (keys st ++ [full_key]) (<[full_key := probe p v]> (probes st))
  | Some p =>
      mkProbing (keys st) (<[full_key := probe p v]> (probes st))
  end.

(** [probe_record] on a dict value.  [expand] is the attribute
    [self.expand] of the stream. *)
Fixpoint probe_dict (expand : bool) (parent : option string)
    (record : value) (st : probing) {struct record} : probing :=
  match record with
  | Leaf _ => st
  | Dict items =>
      (fix loop (items : list (string * value)) (st : probing)
           {struct items} : probing :=
         match items with
         | [] => st
         | (key, v) :: rest =>
             let full_key := collapsed_key "." parent key in
             match v with
             | Dict _ =>
                 if expand
                 then loop rest (probe_dict expand (Some full_key) v st)
                 else loop rest (probe_leaf full_key v st)
             | Leaf _ => loop rest (probe_leaf full_key v st)
             end
         end) items st
  end.

Definition probe_record (expand : bool) (record : list (string * value))
    (parent : option string) (st : probing) : probing :=
  probe_dict expand parent (Dict record) st.

(** The body of the loop over [keys]: the [Field] of one probe. *)
Definition resolve_field (kind_name : kind → string) (p : FieldTypeProbe)
    : Field string :=
  let f := Field_init (field p) in
  match unique_storage_type kind_name p with
  | None => set_storage_type "unknown" f
  | Some storage_type =>
      if negb (Str.truthy storage_type)
      then set_storage_type "unknown" f
      else if String.eqb storage_type "unicode"
      then set_storage_type "string" f
      else set_concrete_storage_type storage_type
             (set_storage_type "unknown" f)
  end.

Fixpoint resolve_loop (kind_name : kind → string)
    (probes : gmap string FieldTypeProbe)
    (keys : list string) (fields : list (Field string))
    : outcome (list (Field string)) :=
  match keys with
  | [] => Ok fields
  | key :: rest =>
      match probes !! key with
      | None => Raise KeyError
      | Some p =>
          resolve_loop kind_name probes rest
            (fields ++ [resolve_field kind_name p])
      end
  end.

Section read_fields.

(** The order in which a dict built by [collapse_record] is iterated:
    some enumeration of its items, which Python 2 does not fix. *)
Variable dict_items : gmap string value → list (string * value).

(** The names under which the probes report the kinds. *)
Variable kind_name : kind → string.

(** The record that is probed: collapsed first when [collapse] is set. *)
Definition prepared (collapse : bool) (record : list (string * value))
    : list (string * value) :=
  if collapse then dict_items (collapse_record record "." None) else record.

(** The loop over [self.records()], from [count] on.  It returns the
    state of the probes and the number of records taken from the
    stream. *)
Fixpoint scan (expand collapse : bool) (limit : Z)
    (records : list (list (string * value))) (count : Z) (st : probing)
    : probing * nat :=
  match records with
  | [] => (st, 0)
  | record :: rest =>
      let st := probe_record expand (prepared collapse record) None st in
      if negb (limit =? 0)%Z && (limit <=? count)%Z
      then (st, 1)
      else
        let '(st, n) := scan expand collapse limit rest (count + 1)%Z st in
        (st, S n)
  end.

Definition read_fields (expand : bool)
    (records : list (list (string * value))) (limit : Z) (collapse : bool)
    : outcome (list (Field string)) :=
  let st := (scan expand collapse limit records 0 (mkProbing [] ∅)).1 in
  resolve_loop kind_name (probes st) (keys st) [].

(** The number of records that [read_fields] takes from the stream. *)
Definition records_read (expand : bool)
    (records : list (list (string * value))) (limit : Z) (collapse : bool)
    : nat :=
  (scan expand collapse limit records 0 (mkProbing [] ∅)).2.

End read_fields.

(** With a probe that reports the text kind as ['unicode'] and the
    integer kind as ['int']. *)
Example read_fields_two_records :
  read_fields map_to_list
    (λ k, match k with KText => "unicode" | KInteger => "int" | _ => "" end)
    false
    [[("id", Leaf (AInt 1)); ("name", Leaf (AText "a"))];
     [("name", Leaf (AText "b")); ("id", Leaf ANone);
      ("tags", Leaf (AOther "[]"))];
     [("name", Leaf (AInt 3))]] 0 false
  = Ok [mkField "id" None "unknown" None (Some "int") None;
        mkField "name" None "unknown" None None None;
        mkField "tags" None "unknown" None None None].
Proof. vm_compute. reflexivity. Qed.

(** ** What [read_fields] has seen *)

(** The pairs of full key and value that [probe_record] probes, in
    order. *)
Fixpoint visits (expand : bool) (parent : option string) (record : value)
    {struct record} : list (string * value) :=
  match record with
  | Leaf _ => []
  | Dict items =>
      (fix go (items : list (string * value)) :=
         match items with
         | [] => []
         | (key, v) :: rest =>
             let full_key := collapsed_key "." parent key in
             match v with
             | Dict _ =>
                 if expand
                 then visits expand (Some full_key) v ++ go rest
                 else (full_key, v) :: go rest
             | Leaf _ => (full_key, v) :: go rest
             end
         end) items
  end.

Definition probe_all (vs : list (string * value)) (st : probing) : probing :=
  foldl (λ st visit, probe_leaf visit.1 visit.2 st) st vs.

Lemma probe_all_app (xs ys : list (string * value)) (st : probing) :
  probe_all (xs ++ ys) st = probe_all ys (probe_all xs st).
Proof. apply foldl_app. Qed.

Lemma probe_dict_visits (expand : bool) (record : value)
    (parent : option string) (st : probing) :
  probe_dict expand parent record st
  = probe_all (visits expand parent record) st.
Proof.
  revert parent st.
  induction record as [a|items IH] using value_nested_ind;
    intros parent st; [done|].
  cbn [probe_dict visits]. revert st.
  induction IH as [|[key v] rest Hv _ IHrest]; intros st; [done|].
  destruct v as [a|nested].
  - rewrite IHrest. done.
  - destruct expand.
    + rewrite IHrest, probe_all_app. f_equal. apply Hv.
    + rewrite IHrest. done.
Qed.

(** The keys of a list in the order of their first occurrence. *)
Fixpoint first_seen_order (l : list string) : list string :=
  match l with
  | [] => []
  | k :: rest => k :: filter (λ k', k' ≠ k) (first_seen_order rest)
  end.

(** The kinds of the values probed under [key]. *)
Definition kinds_at (key : string) (vs : list (string * value)) : gset kind :=
  list_to_set (classify <$> (filter (λ visit, visit.1 = key) vs).*2).

Lemma elem_of_kinds_at (key : string) (vs : list (string * value))
    (k : kind) :
  k ∈ kinds_at key vs ↔ ∃ v, (key, v) ∈ vs ∧ classify v = k.
Proof.
  unfold kinds_at. rewrite elem_of_list_to_set, list_elem_of_fmap.
  setoid_rewrite list_elem_of_fmap. split.
  - intros (v & -> & [key' v'] & -> & Hin).
    apply list_elem_of_filter in Hin as [Hkey Hin]. cbn in Hkey. subst.
    by exists v'.
  - intros (v & Hin & <-). exists v. split; [done|].
    exists (key, v). split; [done|]. by apply list_elem_of_filter.
Qed.

Lemma kinds_at_snoc (key k : string) (v : value)
    (vs : list (string * value)) :
  kinds_at key (vs ++ [(k, v)])
  = if decide (k = key) then {[classify v]} ∪ kinds_at key vs
    else kinds_at key vs.
Proof.
  apply set_eq. intros c. destruct (decide (k = key)) as [->|Hne].
  - rewrite elem_of_union, elem_of_singleton, !elem_of_kinds_at.
    setoid_rewrite elem_of_app. setoid_rewrite list_elem_of_singleton.
    naive_solver.
  - rewrite !elem_of_kinds_at.
    setoid_rewrite elem_of_app. setoid_rewrite list_elem_of_singleton.
    naive_solver.
Qed.

Lemma kinds_at_not_elem (key : string) (vs : list (string * value)) :
  key ∉ vs.*1 → kinds_at key vs = ∅.
Proof.
  intros Hkey. apply set_eq. intros c. rewrite elem_of_kinds_at.
  split; [|set_solver]. intros (v & Hin & _). destruct Hkey.
  apply list_elem_of_fmap. by exists (key, v).
Qed.

Lemma elem_of_first_seen_order (l : list string) (k : string) :
  k ∈ first_seen_order l ↔ k ∈ l.
Proof.
  induction l as [|k' rest IH]; [done|]. cbn.
  rewrite !elem_of_cons, list_elem_of_filter, IH.
  destruct (decide (k = k')); naive_solver.
Qed.

Lemma NoDup_first_seen_order (l : list string) : NoDup (first_seen_order l).
Proof.
  induction l as [|k rest IH]; cbn; [constructor|].
  constructor; [|by apply NoDup_filter].
  rewrite list_elem_of_filter. naive_solver.
Qed.

Lemma first_seen_order_snoc (l : list string) (k : string) :
  first_seen_order (l ++ [k])
  = if decide (k ∈ l) then first_seen_order l else first_seen_order l ++ [k].
Proof.
  induction l as [|k' rest IH]; [done|].
  cbn [app first_seen_order]. rewrite IH.
  destruct (decide (k ∈ rest)) as [Hin|Hnot].
  - rewrite decide_True; [done|by right].
  - rewrite filter_app. destruct (decide (k = k')) as [->|Hne].
    + rewrite decide_True by by left. rewrite filter_cons_False by naive_solver.
      by rewrite filter_nil, app_nil_r.
    + rewrite decide_False by (rewrite elem_of_cons; naive_solver).
      by rewrite filter_cons_True.
Qed.

(** The state of the probes after the visits [vs]. *)
Lemma probe_all_spec (vs : list (string * value)) :
  let st := probe_all vs (mkProbing [] ∅) in
  keys st = first_seen_order vs.*1
  ∧ ∀ key, probes st !! key =
      if decide (key ∈ vs.*1) then Some (mkProbe key (kinds_at key vs))
      else None.
Proof.
  induction vs as [|[k v] vs [IHkeys IHprobes]] using rev_ind.
  { split; [done|]. intros key. cbn. rewrite lookup_empty.
    by rewrite decide_False by by intros ?%elem_of_nil. }
  cbn zeta. rewrite probe_all_app. cbn zeta in IHkeys, IHprobes.
  set (st := probe_all vs (mkProbing [] ∅)) in *.
  cbn [probe_all foldl fst snd]. unfold probe_leaf.
  rewrite fmap_app. change ([(k, v)].*1) with [k].
  rewrite first_seen_order_snoc, (IHprobes k).
  destruct (decide (k ∈ vs.*1)) as [Hin|Hnot]; cbn [keys probes].
  - split; [done|]. intros key. rewrite lookup_insert, kinds_at_snoc.
    destruct (decide (k = key)) as [->|Hne].
    + by rewrite decide_True by set_solver.
    + rewrite IHprobes. destruct (decide (key ∈ vs.*1)).
      * by rewrite decide_True by set_solver.
      * by rewrite decide_False by set_solver.
  - split; [by rewrite IHkeys|]. intros key.
    rewrite lookup_insert, kinds_at_snoc.
    destruct (decide (k = key)) as [->|Hne].
    + rewrite decide_True by set_solver.
      unfold probe, FieldTypeProbe_init. cbn.
      by rewrite kinds_at_not_elem.
    + rewrite IHprobes. destruct (decide (key ∈ vs.*1)).
      * by rewrite decide_True by set_solver.
      * by rewrite decide_False by set_solver.
Qed.

Lemma resolve_loop_spec (kind_name : kind → string)
    (probes : gmap string FieldTypeProbe)
    (keys : list string) (fields : list (Field string))
    (ps : list FieldTypeProbe) :
  Forall2 (λ key p, probes !! key = Some p) keys ps →
  resolve_loop kind_name probes keys fields
  = Ok (fields ++ (resolve_field kind_name <$> ps)).
Proof.
  intros Hall. revert fields.
  induction Hall as [|key p keys ps Hkey _ IH]; intros fields; cbn.
  - by rewrite app_nil_r.
  - rewrite Hkey, IH. by rewrite <-app_assoc.
Qed.

Lemma filter_lookup_lt {A} (P : A → Prop) `{∀ x, Decision (P x)}
    (l : list A) (i j : nat) (a b : A) :
  i < j → filter P l !! i = Some a → filter P l !! j = Some b →
  ∃ i' j', i' < j' ∧ l !! i' = Some a ∧ l !! j' = Some b.
Proof.
  revert i j. induction l as [|x l IH]; intros i j Hij; [done|].
  destruct (decide (P x)) as [Hx|Hx].
  - rewrite filter_cons_True by done. destruct i as [|i].
    + intros [= <-]. destruct j as [|j]; [lia|]. cbn. intros Hb.
      apply list_elem_of_lookup_2, list_elem_of_filter in Hb as [_ Hb].
      apply list_elem_of_lookup_1 in Hb as [j' Hj'].
      exists 0, (S j'). split; [lia|done].
    + destruct j as [|j]; [lia|]. cbn. intros Ha Hb.
      destruct (IH i j) as (i' & j' & Hlt & Hi' & Hj'); [lia|done..|].
      exists (S i'), (S j'). split; [lia|done].
  - rewrite filter_cons_False by done. intros Ha Hb.
    destruct (IH i j) as (i' & j' & Hlt & Hi' & Hj'); [lia|done..|].
    exists (S i'), (S j'). split; [lia|done].
Qed.

(** In [first_seen_order l], a key that comes before another occurs in
    [l] before any occurrence of the other. *)
Lemma first_seen_order_lt (l : list string) (i j : nat) (k1 k2 : string) :
  i < j →
  first_seen_order l !! i = Some k1 → first_seen_order l !! j = Some k2 →
  ∃ l1 l2, l = l1 ++ k1 :: l2 ∧ (k1 ∉ l1) ∧ (k2 ∉ l1).
Proof.
  revert i j. induction l as [|k rest IH]; intros i j Hij; [done|].
  cbn [first_seen_order]. destruct i as [|i].
  - intros [= <-] _. exists [], rest.
    split; [done|]. split; intros Hin; by apply elem_of_nil in Hin.
  - destruct j as [|j]; [lia|]. cbn. intros H1 H2.
    pose proof (list_elem_of_lookup_2 _ _ _ H1) as Hk1.
    pose proof (list_elem_of_lookup_2 _ _ _ H2) as Hk2.
    apply list_elem_of_filter in Hk1 as [Hk1 _].
    apply list_elem_of_filter in Hk2 as [Hk2 _].
    assert (i < j) as Hij' by lia.
    destruct (filter_lookup_lt (λ k', k' ≠ k) _ i j k1 k2 Hij' H1 H2)
      as (i' & j' & Hlt & Hi' & Hj').
    destruct (IH i' j' Hlt Hi' Hj') as (l1 & l2 & -> & Hn1 & Hn2).
    exists (k :: l1), l2. split; [done|].
    rewrite !elem_of_cons. naive_solver.
Qed.

Lemma name_resolve_field (kind_name : kind → string) (p : FieldTypeProbe) :
  name (resolve_field kind_name p) = field p.
Proof.
  unfold resolve_field.
  destruct (unique_storage_type kind_name p) as [s|]; [|done].
  destruct (negb (Str.truthy s)); [done|]. by destruct (String.eqb s "unicode").
Qed.

(** How many records of a stream the loop of [read_fields] reaches: all
    of them when [limit] is 0, and otherwise as many as there are up to
    one more than [limit] (and one for a negative [limit]). *)
Definition records_taken (limit : Z) (records : list (list (string * value)))
    : nat :=
  if decide (limit = 0)%Z then length records
  else length records `min` (Z.to_nat limit + 1).

Section read_fields_properties.

Variable dict_items : gmap string value → list (string * value).
Variable kind_name : kind → string.
Variables expand collapse : bool.
Variable limit : Z.

(** The visits of the records that a scan takes. *)
Definition visits_of (n : nat) (records : list (list (string * value)))
    : list (string * value) :=
  (prepared dict_items collapse <$> take n records)
    ≫= λ record, visits expand None (Dict record).

Lemma scan_visits (records : list (list (string * value))) (count : Z)
    (st : probing) :
  (scan dict_items expand collapse limit records count st).1
  = probe_all
      (visits_of (scan dict_items expand collapse limit records count st).2
         records) st.
Proof.
  revert count st. induction records as [|record rest IH]; intros count st;
    [done|].
  cbn [scan].
  set (st1 := probe_record expand (prepared dict_items collapse record)
                None st).
  assert (∀ n, probe_all (visits_of (S n) (record :: rest)) st
               = probe_all (visits_of n rest) st1) as Hcons.
  { intros n. unfold visits_of.
    rewrite firstn_cons, fmap_cons, bind_cons, probe_all_app.
    unfold st1, probe_record. by rewrite probe_dict_visits. }
  destruct (negb (limit =? 0)%Z && (limit <=? count)%Z).
  - cbn [fst snd]. rewrite Hcons. unfold visits_of. by rewrite take_0.
  - specialize (IH (count + 1)%Z st1).
    destruct (scan dict_items expand collapse limit rest (count + 1)%Z st1)
      as [st' n].
    cbn [fst snd] in *. by rewrite Hcons.
Qed.

(** How many records a scan takes: all of them without a limit, and one
    more than the limit allows with one. *)
Lemma scan_read (records : list (list (string * value))) (count : Z)
    (st : probing) :
  (scan dict_items expand collapse limit records count st).2
  = if decide (limit = 0)%Z then length records
    else length records `min` (Z.to_nat (limit - count) + 1).
Proof.
  revert count st. induction records as [|record rest IH]; intros count st.
  { cbn. by destruct (decide _). }
  cbn [scan].
  set (st1 := probe_record expand (prepared dict_items collapse record)
                None st).
  specialize (IH (count + 1)%Z st1).
  destruct (decide (limit = 0)%Z) as [->|Hlimit].
  - cbn [negb andb Z.eqb].
    destruct (scan dict_items expand collapse 0 rest (count + 1)%Z st1)
      as [st' n].
    cbn [snd] in *. by rewrite IH.
  - replace (limit =? 0)%Z with false by (symmetry; by apply Z.eqb_neq).
    cbn [negb andb]. destruct (Z.leb_spec limit count) as [Hle|Hlt].
    + cbn [snd length]. lia.
    + destruct (scan dict_items expand collapse limit rest (count + 1)%Z st1)
        as [st' n].
      cbn [snd length] in *. rewrite IH. lia.
Qed.

Lemma scan_taken (records : list (list (string * value))) (st : probing) :
  (scan dict_items expand collapse limit records 0 st).2
  = records_taken limit records.
Proof. rewrite scan_read. unfold records_taken. by rewrite Z.sub_0_r. Qed.

(** The pairs of key and value probed in the records that the loop
    reaches, in stream order. *)
Definition probed (records : list (list (string * value)))
    : list (string * value) :=
  visits_of (records_taken limit records) records.

(** [read_fields] returns, and what it returns: one [Field] per key, in
    the order of first occurrence, resolved from the kinds seen under
    that key. *)
Lemma read_fields_spec (records : list (list (string * value))) :
  read_fields dict_items kind_name expand records limit collapse
  = Ok ((λ key, resolve_field kind_name
                  (mkProbe key (kinds_at key (probed records))))
          <$> first_seen_order (probed records).*1).
Proof.
  unfold read_fields, probed. rewrite scan_visits, scan_taken.
  set (vs := visits_of _ records).
  destruct (probe_all_spec vs) as [Hkeys Hprobes]. cbn zeta in *.
  rewrite Hkeys.
  rewrite (resolve_loop_spec _ _ _ []
             ((λ key, mkProbe key (kinds_at key vs))
                <$> first_seen_order vs.*1)).
  - cbn [app]. by rewrite <-list_fmap_compose.
  - apply Forall2_fmap_r, Forall_Forall2_diag, Forall_forall.
    intros key Hkey. apply (proj1 (elem_of_first_seen_order _ _)) in Hkey.
    unfold compose. rewrite Hprobes. by rewrite decide_True by done.
Qed.

End read_fields_properties.

(** The names of resolved fields are the keys they are resolved for. *)
Lemma names_resolved (kind_name : kind → string)
    (vs : list (string * value)) (l : list string) :
  name <$> ((λ key, resolve_field kind_name (mkProbe key (kinds_at key vs)))
              <$> l) = l.
Proof.
  rewrite <-list_fmap_compose. rewrite <-(list_fmap_id l) at 2.
  apply list_fmap_ext. intros _ key _. apply name_resolve_field.
Qed.

(** Without expansion the visits of a record are its items. *)
Lemma visits_flat (parent : option string) (record : list (string * value)) :
  visits false parent (Dict record)
  = prod_map (collapsed_key "." parent) id <$> record.
Proof.
  induction record as [|[key v] rest IH]; [done|].
  cbn [visits] in *. rewrite fmap_cons. destruct v; by rewrite <-IH.
Qed.

(** C8. [read_fields] returns a list of fields whose names are the keys
    probed in the records that the loop reaches ([records_taken] of
    them, in stream order), each once, in the order in which they were
    first probed: a name that comes before another was probed before any
    probe of the other. *)
Theorem read_fields_discovery_order
    (dict_items : gmap string value → list (string * value))
    (kind_name : kind → string)
    (expand collapse : bool) (limit : Z)
    (records : list (list (string * value))) :
  let seen :=
    ((prepared dict_items collapse <$> take (records_taken limit records)
                                             records)
       ≫= λ record, visits expand None (Dict record)).*1 in
  ∃ fs, read_fields dict_items kind_name expand records limit collapse
        = Ok fs
    ∧ name <$> fs = first_seen_order seen
    ∧ NoDup (name <$> fs)
    ∧ (∀ key, key ∈ name <$> fs ↔ key ∈ seen)
    ∧ (∀ i j k1 k2, i < j →
         (name <$> fs) !! i = Some k1 → (name <$> fs) !! j = Some k2 →
         ∃ l1 l2, seen = l1 ++ k1 :: l2 ∧ (k1 ∉ l1) ∧ (k2 ∉ l1)).
Proof.
  intros seen. eexists. split; [apply read_fields_spec|].
  rewrite (names_resolved kind_name
             (probed dict_items expand collapse limit records)).
  unfold probed, visits_of. fold seen.
  split; [done|]. split; [apply NoDup_first_seen_order|].
  split; [intros key; apply elem_of_first_seen_order|].
  intros i j k1 k2. apply first_seen_order_lt.
Qed.

Example read_fields_order :
  ∀ kind_name, ∃ fs,
    read_fields map_to_list kind_name true
      [[("b", Leaf (AInt 1));
        ("a", Dict [("y", Leaf ANone); ("x", Leaf (AInt 2))])];
       [("c", Leaf (AText "t")); ("a", Dict [("x", Leaf (AInt 3))]);
        ("b", Leaf (AInt 4))]] 0 false = Ok fs
    ∧ name <$> fs = ["b"; "a.y"; "a.x"; "c"].
Proof.
  intros kind_name. eexists. split; [apply read_fields_spec|].
  rewrite (names_resolved kind_name). vm_compute. reflexivity.
Qed.

(** C1, as the code has it.  A field on which exactly one kind other
    than null was seen gets the storage type [string] exactly when the
    probe reports that kind under the name ['unicode'], and otherwise
    the storage type [unknown], with the reported name (when it is not
    empty) as its concrete storage type; it never gets the storage type
    [integer], [float] or [boolean]. *)
Theorem read_fields_single_kind
    (dict_items : gmap string value → list (string * value))
    (kind_name : kind → string)
    (expand collapse : bool) (limit : Z)
    (records : list (list (string * value)))
    (fs : list (Field string)) (f : Field string) (k : kind) :
  read_fields dict_items kind_name expand records limit collapse = Ok fs →
  f ∈ fs →
  kinds_at (name f)
    ((prepared dict_items collapse <$> take (records_taken limit records)
                                             records)
       ≫= λ record, visits expand None (Dict record))
    ∖ {[KNull]} = {[k]} →
  storage_type f
  = (if decide (kind_name k = "unicode") then "string" else "unknown")
  ∧ concrete_storage_type f
    = (if decide (kind_name k = "" ∨ kind_name k = "unicode") then None
       else Some (kind_name k))
  ∧ storage_type f ∉ ["integer"; "float"; "boolean"].
Proof.
  rewrite read_fields_spec. intros [= <-] Hin.
  apply list_elem_of_fmap in Hin as (key & -> & _).
  rewrite name_resolve_field. cbn [field]. intros Hkinds.
  unfold resolve_field, unique_storage_type. cbn [observed field].
  unfold probed, visits_of. rewrite Hkinds, elements_singleton.
  destruct (kind_name k) as [|c s] eqn:Hname; cbn [Str.truthy negb].
  { rewrite decide_False by done. rewrite decide_True by by left.
    repeat split. by_compute. }
  destruct (String.eqb_spec (String c s) "unicode") as [Heq|Hne].
  - rewrite decide_True by done. rewrite decide_True by by right.
    repeat split. by_compute.
  - rewrite decide_False by done.
    rewrite decide_False by (by intros [?|?]).
    repeat split. by_compute.
Qed.

Lemma read_fields_single_kind_witness :
  storage_type (mkField (C := string) "price" None "unknown" None
                        (Some "float") None)
  = (if decide ("float" = "unicode") then "string" else "unknown")
  ∧ concrete_storage_type (mkField "price" None "unknown" None
                                   (Some "float") None)
    = (if decide ("float" = "" ∨ "float" = "unicode") then None
       else Some "float")
  ∧ storage_type (mkField (C := string) "price" None "unknown" None
                          (Some "float") None)
    ∉ ["integer"; "float"; "boolean"].
Proof.
  apply (read_fields_single_kind map_to_list
           (λ k, match k with
                 | KText => "unicode" | KFloat => "float" | _ => "other"
                 end)
           false false 0
           [[("price", Leaf (AFloat 0))]; [("price", Leaf ANone)]]
           [mkField "price" None "unknown" None (Some "float") None]
           _ KFloat).
  - vm_compute. reflexivity.
  - by left.
  - vm_compute. reflexivity.
Defined.

(** C1, as the claim has it, fails: whatever names the probe reports, a
    field on which only integers were seen does not get the storage
    type [integer]. *)
Lemma read_fields_integer_is_unknown :
  kinds_at "x"
    ((prepared map_to_list false
        <$> take (records_taken 0 [[("x", Leaf (AInt 1))];
                                   [("x", Leaf (AInt 2))]])
                 [[("x", Leaf (AInt 1))]; [("x", Leaf (AInt 2))]])
       ≫= λ record, visits false None (Dict record))
  = {[KInteger]}
  ∧ ∀ kind_name, ∃ f,
      read_fields map_to_list kind_name false
        [[("x", Leaf (AInt 1))]; [("x", Leaf (AInt 2))]] 0 false = Ok [f]
      ∧ name f = "x"
      ∧ storage_type f ≠ "integer"
      ∧ (storage_type f = "unknown" ∨ storage_type f = "string").
Proof.
  split; [vm_compute; reflexivity|]. intros kind_name.
  exists (resolve_field kind_name (mkProbe "x" {[KInteger]})).
  split; [vm_compute; reflexivity|].
  split; [apply name_resolve_field|].
  unfold resolve_field, unique_storage_type. cbn [observed field].
  replace (elements (({[KInteger]} : gset kind) ∖ {[KNull]}))
    with [KInteger] by (vm_compute; reflexivity).
  destruct (negb (Str.truthy (kind_name KInteger))).
  { split; [done|by left]. }
  destruct (String.eqb (kind_name KInteger) "unicode"); cbn.
  - split; [done|by right].
  - split; [done|by left].
Qed.

(** C4 fails on the code: with [limit = 1] and three records in the
    stream, [read_fields] takes two records, and the field list has the
    key that only the second record has, whatever names the probe
    reports. *)
Theorem read_fields_limit_reads_one_more :
  ∀ kind_name : kind → string,
    let records := [[("a", Leaf (AInt 1))]; [("b", Leaf (AInt 2))];
                    [("c", Leaf (AInt 3))]] in
    records_read map_to_list false records 1 false = 2
    ∧ read_fields map_to_list kind_name false records 1 false
      = Ok [resolve_field kind_name (mkProbe "a" {[KInteger]});
            resolve_field kind_name (mkProbe "b" {[KInteger]})]
    ∧ name <$> [resolve_field kind_name (mkProbe "a" {[KInteger]});
                resolve_field kind_name (mkProbe "b" {[KInteger]})]
      = ["a"; "b"].
Proof.
  intros kind_name records. split; [vm_compute; reflexivity|].
  split; [vm_compute; reflexivity|].
  cbn. by rewrite !name_resolve_field.
Qed.

(** With a positive limit [n], [read_fields] takes [n + 1] records when
    the stream has that many, and the whole stream otherwise. *)
Lemma records_read_limit
    (dict_items : gmap string value → list (string * value))
    (expand collapse : bool) (limit : Z)
    (records : list (list (string * value))) :
  (0 < limit)%Z →
  records_read dict_items expand records limit collapse
  = length records `min` (Z.to_nat limit + 1).
Proof.
  intros Hlimit. unfold records_read. rewrite scan_read.
  rewrite decide_False by lia. by rewrite Z.sub_0_r.
Qed.

(** ** [sql_streams]: reading the fields of a table *)

Section sql_fields.

(** The classes of the backend's column types, and [issubclass]. *)
Context {class : Type}.
Variable issubclass : class → class → bool.

(** [_sql_to_brewery_types]: (sql type, storage type, analytical type),
    tried in order. *)
Variable sql_to_brewery_types : list (class * string * string).

(** A column of the table: its name and the class of its type. *)
Record column := mkColumn {
  column_name : string;
  column_type : class;
}.

(** The loop over [_sql_to_brewery_types], left at the first match. *)
Fixpoint convert (table : list (class * string * string)) (cls : class)
    (f : Field class) : Field class :=
  match table with
  | [] => f
  | conv :: rest =>
      if issubclass cls conv.1.1
      then set_analytical_type conv.2 (set_storage_type conv.1.2 f)
      else convert rest cls f
  end.

(** Truth value of an attribute that is [None] or a string. *)
Definition truthy_attr (a : option string) : bool :=
  match a with
  | Some s => Str.truthy s
  | None => false
  end.

(** The body of the loop over [self.table.columns].  The branch for a
    false [storage_type] assigns to [storaget_tpye], which is no
    attribute of [Field]: the field stays as it is. *)
Definition column_field (c : column) : Field class :=
  let f := Field_init (column_name c) in
  let f := set_concrete_storage_type (column_type c) f in
  let f := convert sql_to_brewery_types (column_type c) f in
  let f := if negb (Str.truthy (storage_type f)) then f else f in
  let f := if negb (truthy_attr (analytical_type f))
           then set_analytical_type "unknown" f else f in
  f.

(** [SQLDataset]: the columns of its table and the cached [_fields]. *)
Record SQLDataset := mkSQLDataset {
  table_columns : list column;
  _fields : option (list (Field class));
}.

(** The property [SQLDataset.fields]: the cached list when there is a
    non-empty one, and otherwise the list computed from the columns,
    which it caches. *)
Definition fields (self : SQLDataset)
    : list (Field class) * SQLDataset :=
  match _fields self with
  | Some (f :: fs) => (f :: fs, self)
  | _ =>
      let fields := column_field <$> table_columns self in
      (fields, mkSQLDataset (table_columns self) (Some fields))
  end.

(** A column type that no entry of the table matches comes out with the
    storage type [unknown] and the analytical type [unknown]. *)
Lemma column_field_unmatched (c : column) :
  Forall (λ conv, issubclass (column_type c) conv.1.1 = false)
         sql_to_brewery_types →
  column_field c
  = mkField (column_name c) None "unknown" (Some "unknown")
            (Some (column_type c)) None.
Proof.
  intros Hnone. unfold column_field.
  assert (∀ f, convert sql_to_brewery_types (column_type c) f = f) as ->.
  { intros f. induction Hnone as [|conv rest Hconv _ IH]; [done|].
    cbn. by rewrite Hconv. }
  done.
Qed.

End sql_fields.

(** The classes of [sqlalchemy.types] that the source names, and
    [NullType], the type of a column that reflection did not
    recognise. *)
Inductive sqlalchemy_type :=
  | SaUnicodeText | SaText | SaUnicode | SaString | SaInteger | SaNumeric
  | SaDateTime | SaDate | SaTime | SaInterval | SaBoolean | SaBinary
  | SaSmallInteger | SaNullType.

#[global] Instance sqlalchemy_type_eq_dec : EqDecision sqlalchemy_type.
Proof. solve_decision. Defined.

(** The classes a class inherits from, itself first. *)
Definition sqlalchemy_bases (cls : sqlalchemy_type) : list sqlalchemy_type :=
  match cls with
  | SaUnicodeText => [SaUnicodeText; SaText; SaString]
  | SaText => [SaText; SaString]
  | SaUnicode => [SaUnicode; SaString]
  | SaSmallInteger => [SaSmallInteger; SaInteger]
  | _ => [cls]
  end.

Definition sqlalchemy_issubclass (cls base : sqlalchemy_type) : bool :=
  bool_decide (base ∈ sqlalchemy_bases cls).

Definition _sql_to_brewery_types
    : list (sqlalchemy_type * string * string) :=
  [(SaUnicodeText, "text", "typeless");
   (SaText, "text", "typeless");
   (SaUnicode, "string", "set");
   (SaString, "string", "set");
   (SaInteger, "integer", "discrete");
   (SaNumeric, "float", "range");
   (SaDateTime, "date", "typeless");
   (SaDate, "date", "typeless");
   (SaTime, "unknown", "typeless");
   (SaInterval, "unknown", "typeless");
   (SaBoolean, "boolean", "flag");
   (SaBinary, "unknown", "typeless")].

Example fields_of_table :
  (fields sqlalchemy_issubclass _sql_to_brewery_types
     (mkSQLDataset [mkColumn "id" SaSmallInteger; mkColumn "note" SaUnicodeText;
                    mkColumn "at" SaTime] None)).1
  = [mkField "id" None "integer" (Some "discrete") (Some SaSmallInteger) None;
     mkField "note" None "text" (Some "typeless") (Some SaUnicodeText) None;
     mkField "at" None "unknown" (Some "typeless") (Some SaTime) None].
Proof. vm_compute. reflexivity. Qed.

(** C5 fails on the code: a column of a type that no entry of the table
    matches gets the analytical type [unknown], which is none of
    [analytical_types], and not [typeless]; no exception is raised. *)
Theorem fields_unmatched_type_is_unknown :
  (fields sqlalchemy_issubclass _sql_to_brewery_types
     (mkSQLDataset [mkColumn "payload" SaNullType] None)).1
  = [mkField "payload" None "unknown" (Some "unknown") (Some SaNullType) None]
  ∧ Forall (λ conv, sqlalchemy_issubclass SaNullType conv.1.1 = false)
           _sql_to_brewery_types
  ∧ "unknown" ∉ analytical_types.
Proof.
  split; [vm_compute; reflexivity|]. split; [|by_compute].
  repeat constructor.
Qed.

(** ** [sql_streams]: appending to a table *)

(** What [append] is given: a dict, a sequence of values, or an object
    that cannot be iterated. *)
Inductive appended :=
  | ADict (record : gmap string atom)
  | ASeq (row : list atom)
  | AScalar (a : atom).

(** [SQLDataTarget], after [initialize]: the names and fields it holds,
    the names of the columns of its table, and the records it has handed
    to the insert command (which is outside the sources). *)
Record SQLDataTarget := mkSQLDataTarget {
  _field_names : option (list string);
  target_fields : option (list (Field sqlalchemy_type));
  dataset_field_names : list string;
  executed : list (gmap string atom);
}.

(** The property [SQLDataTarget.field_names]. *)
Definition field_names (self : SQLDataTarget)
    : list string * SQLDataTarget :=
  match _field_names self with
  | Some (n :: ns) => (n :: ns, self)
  | _ =>
      match target_fields self with
      | Some (f :: fs) => (name <$> f :: fs, self)
      | _ =>
          (dataset_field_names self,
           mkSQLDataTarget (Some (dataset_field_names self))
             (target_fields self) (dataset_field_names self)
             (executed self))
      end
  end.

(** [self.insert_command.execute(record)] *)
Definition execute (record : gmap string atom) (self : SQLDataTarget)
    : SQLDataTarget :=
  mkSQLDataTarget (_field_names self) (target_fields self)
    (dataset_field_names self) (executed self ++ [record]).

(** [SQLDataTarget.append]; [zip] stops at the shorter of its
    arguments, and raises [TypeError] on an object that cannot be
    iterated. *)
Definition append (self : SQLDataTarget) (obj : appended)
    : outcome SQLDataTarget :=
  match obj with
  | ADict record => Ok (execute record self)
  | ASeq row =>
      let '(names, self) := field_names self in
      Ok (execute (dict_of (zip names row)) self)
  | AScalar _ => Raise TypeError
  end.

(** The values of a row beyond the number of fields do not reach the
    insert command. *)
Lemma append_surplus (self : SQLDataTarget) (row : list atom) :
  append self (ASeq row)
  = append self (ASeq (take (length (field_names self).1) row)).
Proof.
  unfold append. destruct (field_names self) as [names self'].
  cbn [fst]. do 3 f_equal. by rewrite zip_with_take_r.
Qed.

(** C6 fails on the code: a row of three values appended to a target of
    two fields is accepted, and its third value is dropped. *)
Theorem append_longer_row_is_accepted :
  let target := mkSQLDataTarget (Some ["a"; "b"]) None ["a"; "b"] [] in
  append target (ASeq [AInt 1; AInt 2; AInt 3])
  = Ok (mkSQLDataTarget (Some ["a"; "b"]) None ["a"; "b"]
          [<["a" := AInt 1]> (<["b" := AInt 2]> ∅)]).
Proof. vm_compute. reflexivity. Qed.

(** * Further properties *)

(** ** [fieldlist]: what is refused, and what is kept *)

(** X1. The loop body of [fieldlist] raises exactly on an empty tuple
    ([IndexError]), on a dict without [name] ([KeyError]), on a dict with
    [name] and [adapter_storage_type] ([TypeError], from [Field]), and on
    an object that is neither a string, a tuple nor a dict
    ([ValueError]). *)
Theorem fieldlist_entry_raises (obj : description) (e : exn) :
  fieldlist_entry obj = Raise e ↔
    match obj with
    | DStr _ => False
    | DTuple t => t = [] ∧ e = IndexError
    | DDict o =>
        (o !! "name" = None ∧ e = KeyError)
        ∨ (is_Some (o !! "name") ∧ is_Some (o !! "adapter_storage_type")
           ∧ e = TypeError)
    | DOther => e = ValueError
    end.
Proof.
  destruct obj as [s|t|o|].
  - split; [|done]. intros Hraise.
    destruct (proj2 (accepted_shape (DStr s)) I) as [f Hf]. congruence.
  - destruct t as [|n rest].
    + cbn. split; [by intros [= <-]|by intros [_ ->]].
    + split; [|by intros [? _]]. intros Hraise.
      destruct (proj2 (accepted_shape (DTuple (n :: rest)))) as [f Hf];
        [done|congruence].
  - destruct (o !! "name") as [n|] eqn:Hname.
    + destruct (o !! "adapter_storage_type") as [a|] eqn:Hadapter.
      * unfold fieldlist_entry.
        destruct (fieldlist_kwargs (DDict o)) as [d|e'] eqn:Hd;
          [|by cbn in Hd; rewrite Hname in Hd].
        pose proof (fieldlist_kwargs_adapter _ _ Hd) as Hd'. cbn in Hd'.
        apply fieldlist_kwargs_inv in Hd as (_ & _ & Hat & _). cbn.
        rewrite bool_decide_eq_true_2 by done. cbn.
        rewrite (Field_kwargs_unknown_key d "adapter_storage_type");
          [|rewrite Hd', Hadapter; eauto|by_compute].
        split.
        -- intros [= <-]. right. eauto.
        -- by intros [[? _]|(_ & _ & ->)].
      * split.
        -- intros Hraise.
           destruct (proj2 (accepted_shape (DDict o))) as [f Hf];
             [|congruence]. split; [by rewrite Hname|done].
        -- intros [[? _]|(_ & Hsome & _)]; [done|].
           by apply is_Some_None in Hsome.
    + unfold fieldlist_entry. cbn. rewrite Hname. cbn. split.
      * intros [= <-]. by left.
      * intros [[_ ->]|(Hsome & _)]; [done|].
        by apply is_Some_None in Hsome.
  - cbn. split; [by intros [= <-]|by intros ->].
Qed.

Lemma fieldlist_loop_Raise (fields : list description)
    (a_list : list (Field string)) (e : exn) :
  fieldlist_loop fields a_list = Raise e ↔
  ∃ i obj, fields !! i = Some obj ∧ fieldlist_entry obj = Raise e
           ∧ Forall accepted (take i fields).
Proof.
  revert a_list. induction fields as [|obj rest IH]; intros a_list.
  { cbn. split; [done|]. by intros (i & obj & ? & _). }
  cbn [fieldlist_loop].
  destruct (fieldlist_entry obj) as [f|e'] eqn:Hobj; cbn.
  - rewrite IH. split.
    + intros (i & obj' & Hi & Hraise & Hall). exists (S i), obj'.
      split; [done|]. split; [done|]. cbn. constructor; [by exists f|done].
    + intros (i & obj' & Hi & Hraise & Hall). destruct i as [|i].
      { cbn in Hi. congruence. }
      exists i, obj'. split; [done|]. split; [done|].
      cbn in Hall. by apply Forall_cons in Hall as [_ Hall].
  - split.
    + intros [= <-]. exists 0, obj. split; [done|]. split; [done|].
      constructor.
    + intros (i & obj' & Hi & Hraise & Hall). destruct i as [|i].
      { cbn in Hi. congruence. }
      cbn in Hall. apply Forall_cons in Hall as [[f Hf] _]. congruence.
Qed.

(** X2. [fieldlist] raises the error of the first description that its
    loop body refuses: the descriptions before it are accepted, and no
    list is returned. *)
Theorem fieldlist_first_error (fields : list description) (e : exn) :
  fieldlist fields = Raise e ↔
  ∃ i obj, fields !! i = Some obj ∧ fieldlist_entry obj = Raise e
           ∧ Forall accepted (take i fields).
Proof. apply fieldlist_loop_Raise. Qed.

(** The storage type, analytical type and label that a description
    gives, read off its shape. *)
Definition described_storage_type (obj : description) : option string :=
  match obj with
  | DTuple t => t !! 1
  | DDict o => o !! "storage_type"
  | _ => None
  end.

Definition described_analytical_type (obj : description) : option string :=
  match obj with
  | DTuple t => t !! 2
  | DDict o => o !! "analytical_type"
  | _ => None
  end.

Definition described_label (obj : description) : option string :=
  match obj with
  | DDict o => o !! "label"
  | _ => None
  end.

Lemma Field_kwargs_attributes (d : gmap string string) (f : Field string) :
  Field_kwargs d = Ok f →
  label f = d !! "label"
  ∧ storage_type f = default "unknown" (d !! "storage_type")
  ∧ analytical_type f = d !! "analytical_type"
  ∧ concrete_storage_type f = d !! "concrete_storage_type"
  ∧ missing_values f = None.
Proof.
  unfold Field_kwargs. destruct (forallb _ _); [|done].
  destruct (d !! "name"); [|done]. by intros [= <-].
Qed.

(** X3. The [Field] built from an accepted description has the storage
    type the description gives ([unknown] when it gives none), the
    analytical type it gives ([typeless] when it gives none), the label
    of a dict description, and neither a concrete storage type nor
    missing values. *)
Theorem fieldlist_entry_attributes (obj : description) (f : Field string) :
  fieldlist_entry obj = Ok f →
  storage_type f = default "unknown" (described_storage_type obj)
  ∧ analytical_type f
    = Some (default "typeless" (described_analytical_type obj))
  ∧ label f = described_label obj
  ∧ concrete_storage_type f = None
  ∧ missing_values f = None.
Proof.
  unfold fieldlist_entry.
  destruct (fieldlist_kwargs obj) as [d|e] eqn:Hd; [|done]. cbn.
  destruct (bool_decide _); [|done]. cbn. intros Hf.
  apply Field_kwargs_attributes in Hf as (-> & -> & -> & -> & ->).
  destruct obj as [s|t|o|]; cbn in Hd; [| | |done].
  - by injection Hd as <-.
  - by destruct t as [|n [|st [|a rest]]]; [done|..]; injection Hd as <-.
  - destruct (o !! "name") as [n|]; [|done]. injection Hd as <-.
    cbn [described_storage_type described_analytical_type described_label].
    rewrite !lookup_copy_key.
    repeat (rewrite decide_False by done).
    rewrite !decide_True by done.
    repeat (rewrite lookup_insert_ne by done).
    rewrite !lookup_insert_eq, lookup_empty.
    by destruct (o !! "storage_type"), (o !! "analytical_type"),
      (o !! "label").
Qed.

Lemma fieldlist_entry_attributes_witness :
  storage_type (mkField (C := string) "amount" None "float" (Some "range")
                        None None) = "float"
  ∧ analytical_type (mkField (C := string) "amount" None "float"
                             (Some "range") None None) = Some "range"
  ∧ label (mkField (C := string) "amount" None "float" (Some "range")
                   None None) = None
  ∧ concrete_storage_type (mkField (C := string) "amount" None "float"
                                   (Some "range") None None) = None
  ∧ missing_values (mkField (C := string) "amount" None "float"
                            (Some "range") None None) = None.
Proof.
  apply (fieldlist_entry_attributes (DTuple ["amount"; "float"; "range"])).
  vm_compute. reflexivity.
Defined.

(** ** [expand_record]: when it raises, and when it changes nothing *)

Lemma set_path_Raise_leaf (parts : list string) (final : string)
    (value : atom) (current : gmap string tree) (e : exn) :
  set_path parts final value current = Raise e →
  ∃ q a, q ≠ [] ∧ q `prefix_of` parts
         ∧ tget q (TNode current) = Some (TLeaf a).
Proof.
  revert current. induction parts as [|part rest IH]; intros current; cbn;
    [done|].
  destruct (current !! part) as [[b|sub0]|] eqn:Hpart.
  - intros _. exists [part], b. split; [done|].
    split; [by apply prefix_cons, prefix_nil|].
    by rewrite tget_cons, Hpart.
  - destruct (set_path rest final value sub0) as [sub|e'] eqn:Hsub; [done|].
    cbn. intros [= <-]. destruct (IH _ Hsub) as (q & a & Hq & Hpre & Hget).
    exists (part :: q), a. split; [done|]. split; [by apply prefix_cons|].
    by rewrite tget_cons, Hpart.
  - destruct (set_path rest final value ∅) as [sub|e'] eqn:Hsub; [done|].
    cbn. intros [= <-]. destruct (IH _ Hsub) as (q & a & _ & _ & Hget).
    by apply tget_empty in Hget.
Qed.

Lemma expand_loop_Raise_collision (separator : string)
    (todo before : list (string * atom)) (result : gmap string tree)
    (e : exn) :
  separator ≠ "" →
  (∀ q a, tget q (TNode result) = Some (TLeaf a) →
          ∃ key, (key, a) ∈ before ∧ Str.split key separator = Ok q) →
  expand_loop separator todo result = Raise e →
  ∃ pre k1 a1 k2 a2 post p1 p2,
    todo = pre ++ (k2, a2) :: post ∧ (k1, a1) ∈ before ++ pre
    ∧ Str.split k1 separator = Ok p1 ∧ Str.split k2 separator = Ok p2
    ∧ p1 `prefix_of` p2 ∧ p1 ≠ p2.
Proof.
  intros Hsep. revert before result.
  induction todo as [|[k a] todo IH]; intros before result Hleaves; [done|].
  cbn [expand_loop].
  destruct (expand_step_set_path separator k a _ result
              (Str.split_is_Ok k separator Hsep))
    as (parts & final & Hpath & ->).
  destruct (set_path parts final a result) as [result1|e1] eqn:Hset; cbn.
  - intros Hraise.
    destruct (IH (before ++ [(k, a)]) result1)
      as (pre & k1 & a1 & k2 & a2 & post & p1 & p2 & -> & Hin & Hrest);
      [|done|].
    { intros q b Hget.
      apply (tget_set_path _ _ _ _ _ _ _ Hset) in Hget
        as [[-> ->]|[_ Hget]].
      - exists k. split; [set_solver|].
        by rewrite Str.split_is_Ok, Hpath.
      - destruct (Hleaves q b Hget) as (key & Hin & Hq).
        exists key. split; [set_solver|done]. }
    exists ((k, a) :: pre), k1, a1, k2, a2, post, p1, p2.
    split; [done|]. split; [|done].
    rewrite <-app_assoc in Hin. done.
  - intros _.
    destruct (set_path_Raise_leaf _ _ _ _ _ Hset) as (q & b & Hq & Hpre & Hget).
    destruct (Hleaves q b Hget) as (k1 & Hin & Hk1).
    exists [], k1, b, k, a, todo, q, (parts ++ [final]).
    split; [done|]. split; [by rewrite app_nil_r|]. split; [done|].
    split; [by rewrite Str.split_is_Ok, Hpath|].
    split; [by apply prefix_app_r|].
    intros ->. by apply prefix_snoc_not in Hpre.
Qed.

(** X4. [expand_record] raises [ValueError] only for the empty
    separator, and otherwise nothing but [TypeError], and that only when
    a key iterated earlier has a path that is a proper prefix of the
    path of a key iterated later. *)
Theorem expand_record_raises (record : list (string * atom))
    (sep : string) (e : exn) :
  expand_record record sep = Raise e →
  (sep = "" ∧ e = ValueError)
  ∨ (e = TypeError
     ∧ ∃ l1 k1 a1 l2 k2 a2 l3 p1 p2,
         record = l1 ++ (k1, a1) :: l2 ++ (k2, a2) :: l3
         ∧ Str.split k1 sep = Ok p1 ∧ Str.split k2 sep = Ok p2
         ∧ p1 `prefix_of` p2 ∧ p1 ≠ p2).
Proof.
  intros Hraise. destruct (decide (sep = "")) as [->|Hsep].
  - left. split; [done|]. destruct record as [|[k a] rest]; [done|].
    unfold expand_record, expand_loop, expand_step in Hraise.
    cbn in Hraise. congruence.
  - right. split; [by eapply expand_loop_Raise|].
    destruct (expand_loop_Raise_collision sep record [] ∅ e Hsep)
      as (pre & k1 & a1 & k2 & a2 & post & p1 & p2 & -> & Hin & Hrest);
      [|done|].
    { intros q a Hget. by apply tget_empty in Hget. }
    cbn in Hin. apply list_elem_of_split in Hin as (l1 & l2 & ->).
    exists l1, k1, a1, l2, k2, a2, post, p1, p2.
    split; [by rewrite <-app_assoc|done].
Qed.

Lemma expand_record_raises_witness :
  ("." = "" ∧ TypeError = ValueError)
  ∨ (TypeError = TypeError
     ∧ ∃ l1 k1 a1 l2 k2 a2 l3 p1 p2,
         [("a", AInt 1); ("b", ANone); ("a.c", AInt 2)]
         = l1 ++ (k1, a1) :: l2 ++ (k2, a2) :: l3
         ∧ Str.split k1 "." = Ok p1 ∧ Str.split k2 "." = Ok p2
         ∧ p1 `prefix_of` p2 ∧ p1 ≠ p2).
Proof.
  apply (expand_record_raises
           [("a", AInt 1); ("b", ANone); ("a.c", AInt 2)] "." TypeError).
  vm_compute. reflexivity.
Defined.

(** X5. On a record whose keys split into a single segment (keys
    without the separator), [expand_record] changes nothing: it returns
    the record itself, as a dict of leaves. *)
Theorem expand_record_plain_keys (record : list (string * atom))
    (sep : string) :
  (∀ key, key ∈ record.*1 → Str.split key sep = Ok [key]) →
  expand_record record sep = Ok (TLeaf <$> dict_of record).
Proof.
  unfold expand_record.
  induction record as [|[k a] record IH] using rev_ind; intros Hplain.
  { unfold dict_of. cbn. by rewrite fmap_empty. }
  rewrite expand_loop_app, IH.
  - cbn. unfold expand_step. cbn [fst snd].
    rewrite Hplain by (rewrite fmap_app; set_solver). cbn.
    by rewrite dict_of_snoc, fmap_insert.
  - intros key Hkey. apply Hplain. rewrite fmap_app. set_solver.
Qed.

Lemma expand_record_plain_keys_witness :
  expand_record [("id", AInt 7); ("name", AText "tea"); ("id", AInt 8)] "."
  = Ok (TLeaf <$> dict_of [("id", AInt 7); ("name", AText "tea");
                           ("id", AInt 8)]).
Proof.
  apply expand_record_plain_keys.
  intros key Hin. cbn in Hin. elem_cases Hin; reflexivity.
Defined.

(** ** [collapse_record]: its keys, and the [root] argument *)

Lemma dict_of_Some_elem {V} (pairs : list (string * V)) (key : string)
    (v : V) :
  dict_of pairs !! key = Some v → (key, v) ∈ pairs.
Proof.
  induction pairs as [|[key' v'] rest IH] using rev_ind.
  - unfold dict_of. cbn. by rewrite lookup_empty.
  - rewrite lookup_dict_of_snoc. destruct (decide (key' = key)) as [->|Hne].
    + intros [= ->]. set_solver.
    + intros Hin. set_solver.
Qed.

(** X6. [collapse_record] keeps every leaf and invents nothing: each
    entry of the result is a leaf of the record under the key collapsed
    from its path, and the key collapsed from the path of any leaf is a
    key of the result. *)
Theorem collapse_record_entries (items : list (string * value))
    (sep : string) (root : option string) :
  (∀ key v, collapse_record items sep root !! key = Some v →
     ∃ path a, (path, a) ∈ value_paths (Dict items)
               ∧ key = key_of_path sep root path ∧ v = Leaf a)
  ∧ (∀ path a, (path, a) ∈ value_paths (Dict items) →
       is_Some (collapse_record items sep root
                  !! key_of_path sep root path)).
Proof.
  rewrite collapse_record_pairs. split.
  - intros key v Hin. apply dict_of_Some_elem in Hin.
    unfold collapsed_pairs in Hin.
    apply list_elem_of_fmap in Hin as ([path a] & [= -> ->] & Hin).
    by exists path, a.
  - intros path a Hin.
    apply not_eq_None_Some. rewrite dict_of_None. intros Hnot.
    apply Hnot. unfold collapsed_pairs. rewrite <-list_fmap_compose.
    apply list_elem_of_fmap. by exists (path, a).
Qed.

Lemma lookup_dict_of_fmap_key {V} (f : string → string) `{!Inj (=) (=) f}
    (pairs : list (string * V)) (key : string) :
  dict_of (prod_map f id <$> pairs) !! f key = dict_of pairs !! key.
Proof.
  induction pairs as [|[k v] rest IH] using rev_ind; [done|].
  rewrite fmap_app. cbn [fmap list_fmap prod_map fst snd id].
  rewrite !lookup_dict_of_snoc.
  destruct (decide (k = key)) as [->|Hne].
  - by rewrite decide_True.
  - rewrite decide_False; [done|]. intros Heq. by apply (inj f) in Heq.
Qed.

(** X7. With a non-empty [root] and no empty key at the top of the
    record, [collapse_record(record, sep, root)] is
    [collapse_record(record, sep)] with [root + sep] put before every
    key. *)
Theorem collapse_record_root (items : list (string * value))
    (sep root : string) :
  root ≠ "" → "" ∉ items.*1 →
  (∀ key, collapse_record items sep (Some root) !! ((root +:+ sep) +:+ key)
          = collapse_record items sep None !! key)
  ∧ (∀ key', is_Some (collapse_record items sep (Some root) !! key') →
       ∃ key, key' = (root +:+ sep) +:+ key
              ∧ is_Some (collapse_record items sep None !! key)).
Proof.
  intros Hroot Htop.
  assert (collapsed_pairs sep (Some root) (Dict items)
          = prod_map (String.append (root +:+ sep)) id
              <$> collapsed_pairs sep None (Dict items)) as Hpairs.
  { unfold collapsed_pairs. rewrite <-list_fmap_compose.
    apply list_fmap_ext. intros i [path a] Hi. cbn. f_equal.
    apply list_elem_of_lookup_2, elem_of_value_paths_Dict in Hi
      as (key & v & rest & -> & Hin & _).
    assert (key ≠ "") as Hkey.
    { intros ->. apply Htop, list_elem_of_fmap. by exists ("", v). }
    rewrite key_of_path_root by by destruct root.
    rewrite key_of_path_join; [|by cbn; intros [= ->]|done].
    by rewrite Str.app_assoc. }
  rewrite !collapse_record_pairs, Hpairs. split.
  - intros key. apply (lookup_dict_of_fmap_key _).
  - intros key' [v Hv]. apply dict_of_Some_elem in Hv.
    apply list_elem_of_fmap in Hv as ([key v'] & [= -> ->] & Hin).
    exists key. split; [done|].
    apply not_eq_None_Some. rewrite dict_of_None. intros Hnot.
    apply Hnot, list_elem_of_fmap. by exists (key, v').
Qed.

Lemma collapse_record_root_witness :
  (∀ key, collapse_record [("a", Dict [("b", Leaf (AInt 1))]);
                           ("c", Leaf ANone)] "." (Some "r")
            !! (("r" +:+ ".") +:+ key)
          = collapse_record [("a", Dict [("b", Leaf (AInt 1))]);
                             ("c", Leaf ANone)] "." None !! key)
  ∧ (∀ key', is_Some (collapse_record [("a", Dict [("b", Leaf (AInt 1))]);
                                       ("c", Leaf ANone)] "." (Some "r")
                        !! key') →
       ∃ key, key' = ("r" +:+ ".") +:+ key
              ∧ is_Some (collapse_record
                           [("a", Dict [("b", Leaf (AInt 1))]);
                            ("c", Leaf ANone)] "." None !! key)).
Proof.
  apply collapse_record_root.
  - discriminate.
  - by_compute.
Defined.

(** ** [read_fields]: the fields it makes, and its two flags *)

Lemma resolve_field_shape (kind_name : kind → string) (p : FieldTypeProbe) :
  analytical_type (resolve_field kind_name p) = None
  ∧ label (resolve_field kind_name p) = None
  ∧ missing_values (resolve_field kind_name p) = None
  ∧ (storage_type (resolve_field kind_name p) = "unknown"
     ∨ (storage_type (resolve_field kind_name p) = "string"
        ∧ concrete_storage_type (resolve_field kind_name p) = None)).
Proof.
  unfold resolve_field. destruct (unique_storage_type kind_name p) as [s|].
  - destruct (negb (Str.truthy s)); [by repeat split; left|].
    destruct (String.eqb s "unicode").
    + repeat split. by right.
    + repeat split. by left.
  - repeat split. by left.
Qed.

(** X8. A [Field] made by [read_fields] has no analytical type, no label
    and no missing values, and its storage type is [unknown], or
    [string] with no concrete storage type: no other storage type is
    ever inferred. *)
Theorem read_fields_field_shape
    (dict_items : gmap string value → list (string * value))
    (kind_name : kind → string)
    (expand collapse : bool) (limit : Z)
    (records : list (list (string * value)))
    (fs : list (Field string)) (f : Field string) :
  read_fields dict_items kind_name expand records limit collapse = Ok fs →
  f ∈ fs →
  analytical_type f = None ∧ label f = None ∧ missing_values f = None
  ∧ (storage_type f = "unknown"
     ∨ (storage_type f = "string" ∧ concrete_storage_type f = None)).
Proof.
  rewrite read_fields_spec. intros [= <-] Hin.
  apply list_elem_of_fmap in Hin as (key & -> & _).
  apply resolve_field_shape.
Qed.

Lemma read_fields_field_shape_witness :
  analytical_type (mkField (C := string) "n" None "string" None None None)
  = None
  ∧ label (mkField (C := string) "n" None "string" None None None) = None
  ∧ missing_values (mkField (C := string) "n" None "string" None None None)
    = None
  ∧ (storage_type (mkField (C := string) "n" None "string" None None None)
     = "unknown"
     ∨ (storage_type (mkField (C := string) "n" None "string" None None None)
        = "string"
        ∧ concrete_storage_type
            (mkField (C := string) "n" None "string" None None None)
          = None)).
Proof.
  apply (read_fields_field_shape map_to_list
           (λ k, match k with KText => "unicode" | _ => "int" end)
           false false 0
           [[("i", Leaf (AInt 1)); ("n", Leaf (AText "a"))]]
           [mkField "i" None "unknown" None (Some "int") None;
            mkField "n" None "string" None None None]).
  - vm_compute. reflexivity.
  - right. left.
Defined.

(** X9. Without a positive limit: [limit = 0] makes [read_fields] take
    every record of the stream, and a negative limit makes it stop
    after the first record. *)
Theorem records_read_without_limit
    (dict_items : gmap string value → list (string * value))
    (expand collapse : bool) (limit : Z)
    (records : list (list (string * value))) :
  (limit ≤ 0)%Z →
  records_read dict_items expand records limit collapse
  = if decide (limit = 0)%Z then length records else length records `min` 1.
Proof.
  intros Hlimit. unfold records_read. rewrite scan_read.
  destruct (decide (limit = 0)%Z); [done|].
  by replace (Z.to_nat (limit - 0)) with 0 by lia.
Qed.

Lemma records_read_without_limit_witness :
  records_read map_to_list false
    [[("a", Leaf (AInt 1))]; [("b", Leaf (AInt 2))]] (-3)%Z false
  = 2 `min` 1.
Proof.
  apply (records_read_without_limit map_to_list false false (-3)%Z
           [[("a", Leaf (AInt 1))]; [("b", Leaf (AInt 2))]]).
  lia.
Defined.

Lemma visits_cons (expand : bool) (parent : option string) (key : string)
    (v : value) (rest : list (string * value)) :
  visits expand parent (Dict ((key, v) :: rest))
  = match v with
    | Dict _ =>
        if expand
        then visits expand (Some (collapsed_key "." parent key)) v
        else [(collapsed_key "." parent key, v)]
    | Leaf _ => [(collapsed_key "." parent key, v)]
    end ++ visits expand parent (Dict rest).
Proof. by destruct v, expand. Qed.

(** On a record without dict values the visits are its items, whatever
    [expand] is. *)
Lemma visits_leaves (expand : bool) (parent : option string)
    (record : list (string * value)) :
  Forall (λ item, is_leaf item.2) record →
  visits expand parent (Dict record)
  = prod_map (collapsed_key "." parent) id <$> record.
Proof.
  induction 1 as [|[key v] rest [a Ha] _ IH]; [done|].
  cbn in Ha. subst v. by rewrite visits_cons, IH.
Qed.

Lemma scan_ext
    (dict_items : gmap string value → list (string * value))
    (expand expand' collapse collapse' : bool) (limit : Z)
    (records : list (list (string * value))) (count : Z) (st : probing) :
  Forall (λ record, ∀ st,
            probe_record expand (prepared dict_items collapse record) None st
            = probe_record expand' (prepared dict_items collapse' record)
                None st) records →
  scan dict_items expand collapse limit records count st
  = scan dict_items expand' collapse' limit records count st.
Proof.
  intros Hall. revert count st.
  induction Hall as [|record rest Hrecord _ IH]; intros count st; [done|].
  cbn [scan]. rewrite Hrecord. destruct (_ && _); [done|]. by rewrite IH.
Qed.

(** X10. After [collapse_record] no value is a dict, so with
    [collapse] set the attribute [self.expand] has no effect on
    [read_fields]. *)
Theorem read_fields_collapse_ignores_expand
    (dict_items : gmap string value → list (string * value))
    (kind_name : kind → string)
    (limit : Z) (records : list (list (string * value))) :
  (∀ d item, item ∈ dict_items d → item ∈ map_to_list d) →
  read_fields dict_items kind_name true records limit true
  = read_fields dict_items kind_name false records limit true.
Proof.
  intros Hitems. unfold read_fields.
  rewrite (scan_ext dict_items true false true true); [done|].
  apply Forall_forall. intros record _ st. unfold probe_record.
  rewrite !probe_dict_visits. f_equal.
  assert (Forall (λ item, is_leaf item.2) (prepared dict_items true record))
    as Hleaves.
  { apply Forall_forall. intros [key v] Hin. apply Hitems in Hin.
    apply elem_of_map_to_list in Hin.
    by apply (collapse_record_leaves record "." None key v). }
  by rewrite !visits_leaves.
Qed.

Lemma read_fields_collapse_ignores_expand_witness :
  read_fields map_to_list (λ _, "int") true
    [[("a", Dict [("b", Leaf (AInt 1))]); ("c", Leaf ANone)]] 0 true
  = read_fields map_to_list (λ _, "int") false
      [[("a", Dict [("b", Leaf (AInt 1))]); ("c", Leaf ANone)]] 0 true.
Proof. apply read_fields_collapse_ignores_expand. by intros d item Hin. Defined.

(** The names of the fields of [read_fields] are the keys probed. *)
Lemma read_fields_discovery_names
    (dict_items : gmap string value → list (string * value))
    (kind_name : kind → string)
    (expand collapse : bool) (limit : Z)
    (records : list (list (string * value))) :
  ∃ fs, read_fields dict_items kind_name expand records limit collapse
        = Ok fs
    ∧ ∀ key, key ∈ name <$> fs
             ↔ key ∈ (probed dict_items expand collapse limit records).*1.
Proof.
  eexists. split; [apply read_fields_spec|]. intros key.
  rewrite (names_resolved kind_name). apply elem_of_first_seen_order.
Qed.

(** With expansion the visits of a record are the pairs that
    [collapse_record] turns into its result. *)
Lemma visits_expand_pairs (v : value) :
  match v with
  | Leaf _ => True
  | Dict items =>
      ∀ parent, visits true parent (Dict items)
                = collapsed_pairs "." parent (Dict items)
  end.
Proof.
  induction v as [a|items IH] using value_nested_ind; [done|].
  intros parent. induction IH as [|[key v] rest Hv _ IHrest]; [done|].
  rewrite visits_cons, collapsed_pairs_cons, IHrest. f_equal.
  destruct v as [a|nested]; [done|]. apply Hv.
Qed.

Lemma elem_of_visits_of_keys
    (dict_items : gmap string value → list (string * value))
    (expand collapse : bool) (n : nat)
    (records : list (list (string * value))) (key : string) :
  key ∈ (visits_of dict_items expand collapse n records).*1 ↔
  ∃ record, record ∈ take n records
    ∧ key ∈ (visits expand None
               (Dict (prepared dict_items collapse record))).*1.
Proof.
  unfold visits_of. rewrite list_elem_of_fmap.
  setoid_rewrite list_elem_of_bind. setoid_rewrite list_elem_of_fmap.
  split.
  - intros ([key' v] & -> & record' & Hin & record & -> & Hrecord).
    exists record. split; [done|]. by exists (key', v).
  - intros (record & Hrecord & [key' v] & -> & Hin).
    exists (key', v). split; [done|].
    exists (prepared dict_items collapse record). split; [done|].
    by exists record.
Qed.

(** X11. Probing with [self.expand] and probing after [collapse] find
    the same field names: the names returned by [read_fields] on the
    records with expansion are those returned on the collapsed
    records. *)
Theorem read_fields_expand_collapse_names
    (dict_items : gmap string value → list (string * value))
    (kind_name : kind → string)
    (expand : bool) (limit : Z) (records : list (list (string * value))) :
  (∀ d, dict_items d ≡ₚ map_to_list d) →
  ∃ fs1 fs2,
    read_fields dict_items kind_name true records limit false = Ok fs1
    ∧ read_fields dict_items kind_name expand records limit true = Ok fs2
    ∧ ∀ key, key ∈ name <$> fs1 ↔ key ∈ name <$> fs2.
Proof.
  intros Hitems.
  destruct (read_fields_discovery_names dict_items kind_name true false
              limit records) as (fs1 & Hfs1 & Hnames1).
  destruct (read_fields_discovery_names dict_items kind_name expand true
              limit records) as (fs2 & Hfs2 & Hnames2).
  exists fs1, fs2. split; [done|]. split; [done|]. intros key.
  rewrite Hnames1, Hnames2. unfold probed.
  rewrite !elem_of_visits_of_keys.
  set (n := records_taken limit records).
  apply exist_proper. intros record. apply and_iff_compat_l.
  cbn [prepared].
  pose proof (visits_expand_pairs (Dict record) None) as ->.
  rewrite visits_leaves.
  - rewrite <-list_fmap_compose.
    replace (fst ∘ prod_map (collapsed_key "." None) id)
      with (@fst string value) by done.
    rewrite (Hitems _).
    rewrite collapse_record_pairs.
    set (pairs := collapsed_pairs "." None (Dict record)).
    split.
    + intros Hin. apply list_elem_of_fmap.
      destruct (dict_of pairs !! key) as [v|] eqn:Hkey.
      * exists (key, v). split; [done|]. by apply elem_of_map_to_list.
      * by apply dict_of_None in Hkey.
    + intros Hin. apply list_elem_of_fmap in Hin as ([key' v] & -> & Hin).
      apply elem_of_map_to_list, dict_of_Some_elem in Hin.
      apply list_elem_of_fmap. by exists (key', v).
  - apply Forall_forall. intros [key' v] Hin. rewrite (Hitems _) in Hin.
    apply elem_of_map_to_list in Hin.
    by apply (collapse_record_leaves record "." None key' v).
Qed.

Lemma read_fields_expand_collapse_names_witness :
  ∃ fs1 fs2,
    read_fields map_to_list (λ _, "int") true
      [[("a", Dict [("b", Leaf (AInt 1)); ("c", Leaf ANone)]);
        ("d", Leaf (AText "x"))]] 0 false = Ok fs1
    ∧ read_fields map_to_list (λ _, "int") false
        [[("a", Dict [("b", Leaf (AInt 1)); ("c", Leaf ANone)]);
          ("d", Leaf (AText "x"))]] 0 true = Ok fs2
    ∧ ∀ key, key ∈ name <$> fs1 ↔ key ∈ name <$> fs2.
Proof. apply read_fields_expand_collapse_names. by intros d. Defined.

(** ** [SQLDataset.fields]: matching, order and the cache *)

Lemma convert_keeps {class} (issubclass : class → class → bool)
    (table : list (class * string * string)) (cls : class)
    (f : Field class) :
  name (convert issubclass table cls f) = name f
  ∧ label (convert issubclass table cls f) = label f
  ∧ concrete_storage_type (convert issubclass table cls f)
    = concrete_storage_type f
  ∧ missing_values (convert issubclass table cls f) = missing_values f.
Proof.
  induction table as [|conv rest IH]; [done|]. cbn.
  by destruct (issubclass cls conv.1.1).
Qed.

(** X12. The first entry of the table that the column type is a
    subclass of decides: the field gets its storage type, and its
    analytical type ([unknown] when that is empty), whatever later
    entries would match. *)
Theorem column_field_first_match {class}
    (issubclass : class → class → bool)
    (table pre post : list (class * string * string))
    (conv : class * string * string) (c : column) :
  table = pre ++ conv :: post →
  Forall (λ conv', issubclass (column_type c) conv'.1.1 = false) pre →
  issubclass (column_type c) conv.1.1 = true →
  column_field issubclass table c
  = mkField (column_name c) None conv.1.2
            (Some (if Str.truthy conv.2 then conv.2 else "unknown"))
            (Some (column_type c)) None.
Proof.
  intros -> Hpre Hconv. unfold column_field.
  assert (∀ f, convert issubclass (pre ++ conv :: post) (column_type c) f
               = set_analytical_type conv.2 (set_storage_type conv.1.2 f))
    as ->.
  { intros f. induction Hpre as [|conv' pre Hconv' _ IH]; cbn.
    - by rewrite Hconv.
    - by rewrite Hconv'. }
  destruct conv as [[cls st] an]. cbn.
  destruct (Str.truthy st), (Str.truthy an) eqn:Han; cbn; by rewrite Han.
Qed.

Lemma column_field_first_match_witness :
  column_field sqlalchemy_issubclass _sql_to_brewery_types
    (mkColumn "title" SaUnicode)
  = mkField "title" None "string" (Some "set") (Some SaUnicode) None.
Proof.
  apply (column_field_first_match sqlalchemy_issubclass _sql_to_brewery_types
           [(SaUnicodeText, "text", "typeless"); (SaText, "text", "typeless")]
           (drop 3 _sql_to_brewery_types)
           (SaUnicode, "string", "set") (mkColumn "title" SaUnicode)).
  - reflexivity.
  - repeat constructor.
  - reflexivity.
Defined.

(** X13. Read without a cached list, the fields of a dataset are one
    per column, in the order of the columns, each with the name of its
    column, the type of its column as concrete storage type, and an
    analytical type. *)
Theorem fields_follow_columns {class} (issubclass : class → class → bool)
    (table : list (class * string * string)) (self : SQLDataset) :
  _fields self = None →
  name <$> (fields issubclass table self).1
    = column_name <$> table_columns self
  ∧ concrete_storage_type <$> (fields issubclass table self).1
    = Some ∘ column_type <$> table_columns self
  ∧ Forall (λ f, is_Some (analytical_type f))
           (fields issubclass table self).1.
Proof.
  intros Hcache. unfold fields. rewrite Hcache. cbn [fst].
  assert (∀ c, name (column_field issubclass table c) = column_name c
               ∧ concrete_storage_type (column_field issubclass table c)
                 = Some (column_type c)
               ∧ is_Some (analytical_type (column_field issubclass table c)))
    as Hfield.
  { intros c. unfold column_field.
    destruct (convert_keeps issubclass table (column_type c)
                (set_concrete_storage_type (column_type c)
                   (Field_init (column_name c))))
      as (Hname & _ & Hconcrete & _).
    set (f := convert _ _ _ _) in *. cbn zeta.
    replace (if negb (Str.truthy (storage_type f)) then f else f) with f
      by by destruct (negb _).
    destruct (negb (truthy_attr (analytical_type f))) eqn:Htruthy.
    - cbn. split; [done|]. split; [done|]. eauto.
    - split; [done|]. split; [done|].
      destruct (analytical_type f); [eauto|done]. }
  rewrite <-!list_fmap_compose. split; [|split].
  - apply list_fmap_ext. intros _ c _. apply Hfield.
  - apply list_fmap_ext. intros _ c _. apply Hfield.
  - apply Forall_fmap, Forall_forall. intros c _. apply Hfield.
Qed.

Lemma fields_follow_columns_witness :
  name <$> (fields sqlalchemy_issubclass _sql_to_brewery_types
              (mkSQLDataset [mkColumn "id" SaInteger; mkColumn "at" SaTime]
                            None)).1
    = column_name <$> [mkColumn "id" SaInteger; mkColumn "at" SaTime]
  ∧ concrete_storage_type
      <$> (fields sqlalchemy_issubclass _sql_to_brewery_types
             (mkSQLDataset [mkColumn "id" SaInteger; mkColumn "at" SaTime]
                           None)).1
    = Some ∘ column_type <$> [mkColumn "id" SaInteger; mkColumn "at" SaTime]
  ∧ Forall (λ f, is_Some (analytical_type f))
      (fields sqlalchemy_issubclass _sql_to_brewery_types
         (mkSQLDataset [mkColumn "id" SaInteger; mkColumn "at" SaTime]
                       None)).1.
Proof.
  apply (fields_follow_columns sqlalchemy_issubclass _sql_to_brewery_types
           (mkSQLDataset [mkColumn "id" SaInteger; mkColumn "at" SaTime]
                         None)).
  reflexivity.
Defined.

(** X14. Reading [fields] again gives the same list and leaves the
    dataset as the first read left it; the columns are never changed. *)
Theorem fields_read_twice {class} (issubclass : class → class → bool)
    (table : list (class * string * string)) (self : SQLDataset) :
  fields issubclass table (fields issubclass table self).2
  = fields issubclass table self
  ∧ table_columns (fields issubclass table self).2 = table_columns self.
Proof.
  unfold fields. destruct (_fields self) as [[|f fs]|] eqn:Hcache;
    cbn; rewrite ?Hcache; (split; [|done]); try done;
    by destruct (column_field issubclass table <$> table_columns self).
Qed.

(** Settles the case that the column type matches the entry of [cls],
    and goes on with the case that it does not. *)
Ltac table_entry issubclass c cls :=
  destruct (issubclass (column_type c) cls) eqn:?;
  [ split; [by_compute|];
    eexists; split; [reflexivity|];
    left; split; [|by_compute];
    repeat first [ by apply List.Exists_cons_hd | apply List.Exists_cons_tl ]
  | ].

(** X15. With the table of the source, whatever the class hierarchy:
    the storage type of a field read from a column is one of
    [storage_types]; when the column type is a subclass of some entry,
    the analytical type is one of [analytical_types]; and when it is a
    subclass of no entry, the storage type and the analytical type are
    both [unknown]. *)
Theorem column_field_types
    (issubclass : sqlalchemy_type → sqlalchemy_type → bool) (c : column) :
  storage_type (column_field issubclass _sql_to_brewery_types c)
    ∈ storage_types
  ∧ ∃ a, analytical_type (column_field issubclass _sql_to_brewery_types c)
         = Some a
         ∧ ((Exists (λ conv, issubclass (column_type c) conv.1.1 = true)
                    _sql_to_brewery_types
             ∧ a ∈ analytical_types)
            ∨ (Forall (λ conv, issubclass (column_type c) conv.1.1 = false)
                      _sql_to_brewery_types
               ∧ a = "unknown"
               ∧ storage_type
                   (column_field issubclass _sql_to_brewery_types c)
                 = "unknown")).
Proof.
  unfold column_field, _sql_to_brewery_types. cbn [convert fst snd].
  table_entry issubclass c SaUnicodeText.
  table_entry issubclass c SaText.
  table_entry issubclass c SaUnicode.
  table_entry issubclass c SaString.
  table_entry issubclass c SaInteger.
  table_entry issubclass c SaNumeric.
  table_entry issubclass c SaDateTime.
  table_entry issubclass c SaDate.
  table_entry issubclass c SaTime.
  table_entry issubclass c SaInterval.
  table_entry issubclass c SaBoolean.
  table_entry issubclass c SaBinary.
  split; [by_compute|]. eexists. split; [reflexivity|]. right.
  split; [by repeat constructor|]. by split.
Qed.

(** ** [split_table_schema] and [SQLDataStore._table] *)

(** [split_table_schema]: the first two pieces of the name when it has
    a dot, and no schema otherwise. *)
Definition split_table_schema (table_name : string)
    : outcome (option string * string) :=
  split ← Str.split table_name ".";
  if bool_decide (1 < length split)
  then
    match split !! 0, split !! 1 with
    | Some schema, Some table => Ok (Some schema, table)
    | _, _ => Raise IndexError
    end
  else
    match split !! 0 with
    | Some table => Ok (None, table)
    | None => Raise IndexError
    end.

(** The schema and table name that [SQLDataStore._table] hands to
    [sqlalchemy.Table]: [self.schema] stands in for a false schema. *)
Definition table_reference (store_schema : option string) (name : string)
    : outcome (option string * string) :=
  split ← split_table_schema name;
  let schema := split.1 in
  let table_name := split.2 in
  let schema := if negb (truthy_attr schema) then store_schema else schema in
  Ok (schema, table_name).

Example split_table_schema_qualified :
  split_table_schema "sales.orders" = Ok (Some "sales", "orders").
Proof. reflexivity. Qed.

Example split_table_schema_three :
  split_table_schema "db.sales.orders" = Ok (Some "db", "sales").
Proof. reflexivity. Qed.

(** [c in s] for a character [c]. *)
Fixpoint has_char (c : Ascii.ascii) (s : string) : bool :=
  match s with
  | EmptyString => false
  | String c' s' => if Ascii.ascii_dec c c' then true else has_char c s'
  end.

(** No piece of a split at the dots has a dot. *)
Lemma split_from_dot (s : string) :
  Forall (λ piece, has_char "."%char piece = false) (Str.split_from "." 0 s).
Proof.
  induction s as [|c s IH]; [by repeat constructor|].
  cbn [Str.split_from String.prefix String.length].
  destruct (Ascii.ascii_dec "."%char c) as [<-|Hne].
  - replace (String.prefix "" s) with true by by destruct s.
    by constructor.
  - destruct (Str.split_from "." 0 s) as [|piece rest]; cbn [Str.push].
    + constructor; [|done]. cbn [has_char].
      by destruct (Ascii.ascii_dec "."%char c).
    + apply Forall_cons in IH as [Hpiece Hrest].
      constructor; [|done]. cbn [has_char].
      by destruct (Ascii.ascii_dec "."%char c).
Qed.

Lemma split_table_schema_parts_aux (table_name : string) :
  ∃ schema table,
    split_table_schema table_name = Ok (schema, table)
    ∧ has_char "."%char table = false
    ∧ match schema with
      | None => table = table_name
      | Some s => has_char "."%char s = false
                  ∧ ∃ rest, Str.join "." (s :: table :: rest) = table_name
      end.
Proof.
  unfold split_table_schema.
  assert ("." ≠ "") as Hdot by done.
  pose proof (Str.join_split table_name "." _ (Str.split_is_Ok _ "." Hdot))
    as Hjoin.
  pose proof (split_from_dot table_name) as Hpieces.
  rewrite Str.split_is_Ok by done. cbn.
  destruct (Str.split_from "." 0 table_name) as [|s0 [|s1 rest]] eqn:Hsplit.
  - by apply Str.split_from_nonempty in Hsplit.
  - apply Forall_cons in Hpieces as [Hs0 _]. exists None, s0. by split.
  - apply Forall_cons in Hpieces as [Hs0 Hpieces].
    apply Forall_cons in Hpieces as [Hs1 _].
    exists (Some s0), s1. split; [done|]. split; [done|]. split; [done|].
    by exists rest.
Qed.

(** X16. [split_table_schema] always returns, and the table it returns
    has no dot.  It returns no schema exactly for a name without a dot,
    and then the table is the name.  For a name with a dot, the schema
    is the text before the first dot and the table the text between the
    first dot and the second (or the end of the name): the name is the
    schema, a dot and the table, possibly followed by further dotted
    pieces, which are dropped. *)
Theorem split_table_schema_parts (table_name : string) :
  ∃ schema table,
    split_table_schema table_name = Ok (schema, table)
    ∧ has_char "."%char table = false
    ∧ match schema with
      | None => table = table_name
      | Some s => has_char "."%char s = false
                  ∧ ∃ rest, Str.join "." (s :: table :: rest) = table_name
      end.
Proof. apply split_table_schema_parts_aux. Qed.

Example split_table_schema_dropped :
  split_table_schema "db.sales.orders" = Ok (Some "db", "sales")
  ∧ Str.join "." ["db"; "sales"; "orders"] = "db.sales.orders".
Proof. done. Qed.

(** X17. [_table] always resolves a name, to a table without a dot, in
    one of three ways.  A name without a dot is the table, in the schema
    of the store.  A name that starts with a dot has an empty schema:
    the table is the text after that dot, in the schema of the store.
    Any other name has a non-empty schema before its first dot, and that
    schema is used whatever the schema of the store. *)
Theorem table_reference_schema (store_schema : option string)
    (name : string) :
  ∃ schema table,
    table_reference store_schema name = Ok (schema, table)
    ∧ has_char "."%char table = false
    ∧ ((table = name ∧ schema = store_schema)
       ∨ ((∃ rest, Str.join "." ("" :: table :: rest) = name)
          ∧ schema = store_schema)
       ∨ (∃ s rest, s ≠ "" ∧ has_char "."%char s = false
                    ∧ Str.join "." (s :: table :: rest) = name
                    ∧ schema = Some s)).
Proof.
  unfold table_reference.
  destruct (split_table_schema_parts_aux name)
    as (schema & table & -> & Htable & Hparts).
  cbn. destruct schema as [[|c s]|]; cbn.
  - exists store_schema, table. split; [done|]. split; [done|].
    right. left. by destruct Hparts.
  - exists (Some (String c s)), table. split; [done|]. split; [done|].
    right. right. destruct Hparts as (Hs & rest & Hjoin).
    by exists (String c s), rest.
  - exists store_schema, table. split; [done|]. split; [done|]. by left.
Qed.

Example table_reference_cases :
  table_reference (Some "public") "orders" = Ok (Some "public", "orders")
  ∧ table_reference (Some "public") ".orders" = Ok (Some "public", "orders")
  ∧ table_reference (Some "public") "sales.orders"
    = Ok (Some "sales", "orders")
  ∧ table_reference None "db.sales.orders" = Ok (Some "db", "sales").
Proof. done. Qed.

(** ** [SQLDataStore.create_dataset]: the columns it makes *)

Definition _brewery_to_sql_type : gmap string sqlalchemy_type :=
  <["string" := SaUnicode]> (
  <["text" := SaUnicodeText]> (
  <["date" := SaDate]> (
  <["time" := SaDateTime]> (
  <["integer" := SaInteger]> (
  <["numeric" := SaNumeric]> (
  <["boolean" := SaSmallInteger]> ∅)))))).

Section create_dataset.

(** The concrete storage types that are instances of
    [sqlalchemy.types.TypeEngine], with their class. *)
Context {C : Type}.
Variable type_engine : C → option sqlalchemy_type.

(** The body of the loop over [fields]: the column of one field.  Its
    type is the concrete storage type when that is a [TypeEngine], and
    else the entry of [_brewery_to_sql_type] for the storage type;
    without one, [ValueError] is raised. *)
Definition field_column (f : Field C) : outcome column :=
  match concrete_storage_type f ≫= type_engine with
  | Some concrete_type => Ok (mkColumn (name f) concrete_type)
  | None =>
      match _brewery_to_sql_type !! storage_type f with
      | Some concrete_type => Ok (mkColumn (name f) concrete_type)
      | None => Raise ValueError
      end
  end.

(** The loop of [create_dataset] that appends one column per field to
    the table.  (Whether the table exists, and dropping and creating
    it, are calls into sqlalchemy.) *)
Fixpoint create_columns (fields : list (Field C)) (columns : list column)
    : outcome (list column) :=
  match fields with
  | [] => Ok columns
  | f :: rest =>
      col ← field_column f;
      create_columns rest (columns ++ [col])
  end.

Lemma create_columns_spec (fields : list (Field C))
    (columns cols : list column) :
  create_columns fields columns = Ok cols ↔
  ∃ new, cols = columns ++ new
         ∧ Forall2 (λ f col, field_column f = Ok col) fields new.
Proof.
  revert columns. induction fields as [|f rest IH]; intros columns; cbn.
  - split.
    + intros [= <-]. exists []. by rewrite app_nil_r.
    + intros (new & -> & Hall). apply Forall2_nil_inv_l in Hall as ->.
      by rewrite app_nil_r.
  - destruct (field_column f) as [col|e] eqn:Hf; cbn.
    + rewrite IH. split.
      * intros (new & -> & Hall). exists (col :: new).
        split; [by rewrite <-app_assoc|]. by constructor.
      * intros (new & -> & Hall).
        apply Forall2_cons_inv_l in Hall as (col' & new' & Hcol & Hall & ->).
        assert (col' = col) as -> by congruence.
        exists new'. split; [by rewrite <-app_assoc|done].
    + split; [done|]. intros (new & _ & Hall).
      apply Forall2_cons_inv_l in Hall as (col' & new' & Hcol & _ & _).
      congruence.
Qed.

(** X18. A field without a [TypeEngine] as concrete storage type, and
    with one of the storage types of [Field], gets a column unless its
    storage type is [unknown] or [float]: for these two the table has no
    entry, and [ValueError] is raised. *)
Theorem field_column_storage_types (f : Field C) :
  concrete_storage_type f ≫= type_engine = None →
  storage_type f ∈ storage_types →
  (field_column f = Raise ValueError
   ↔ storage_type f = "unknown" ∨ storage_type f = "float")
  ∧ (is_Ok (field_column f)
     ↔ storage_type f ≠ "unknown" ∧ storage_type f ≠ "float").
Proof.
  intros Hconcrete Hstorage. unfold field_column, is_Ok. rewrite Hconcrete.
  unfold storage_types in Hstorage.
  elem_cases Hstorage;
    match goal with
    | |- context [_brewery_to_sql_type !! ?s] =>
        let E := fresh "E" in
        destruct (_brewery_to_sql_type !! s) as [t|] eqn:E;
        vm_compute in E; try discriminate E
    end.
  all: split; split.
  all: try (intros [H|H]; discriminate H).
  all: try (intros [H1 H2]; by (destruct H1 || destruct H2)).
  all: try (intros H; discriminate H).
  all: try (intros [col H]; discriminate H).
  all: try (intros _; by eauto).
  all: try (intros _; split; discriminate).
Qed.

End create_dataset.

Lemma field_column_storage_types_witness :
  (field_column (λ _ : string, None)
     (mkField "price" None "float" None (Some "float") None)
   = Raise ValueError
   ↔ "float" = "unknown" ∨ "float" = "float")
  ∧ (is_Ok (field_column (λ _ : string, None)
              (mkField "price" None "float" None (Some "float") None))
     ↔ "float" ≠ "unknown" ∧ "float" ≠ "float").
Proof.
  apply (field_column_storage_types (λ _ : string, None)
           (mkField "price" None "float" None (Some "float") None)).
  - reflexivity.
  - by_compute.
Defined.

Lemma field_column_read_back {C} (type_engine : C → option sqlalchemy_type)
    (f : Field C) :
  concrete_storage_type f ≫= type_engine = None →
  storage_type f ∈ ["string"; "text"; "integer"; "date"] →
  ∃ col, field_column type_engine f = Ok col
         ∧ name (column_field sqlalchemy_issubclass _sql_to_brewery_types col)
           = name f
         ∧ storage_type
             (column_field sqlalchemy_issubclass _sql_to_brewery_types col)
           = storage_type f.
Proof.
  intros Hconcrete Hstorage. destruct f as [n l st a c m].
  cbn in Hconcrete, Hstorage. unfold field_column.
  cbn [concrete_storage_type storage_type name]. rewrite Hconcrete.
  elem_cases Hstorage; eexists; (split; [vm_compute; reflexivity|by split]).
Qed.

(** X19. Creating a table from fields and reading its fields back: for
    fields without a [TypeEngine] whose storage types are among
    [string], [text], [integer] and [date], the columns are made, and
    the fields read from them have the same names and the same storage
    types, in the same order. *)
Theorem create_then_read_fields {C} (type_engine : C → option sqlalchemy_type)
    (fs : list (Field C)) :
  Forall (λ f, concrete_storage_type f ≫= type_engine = None
               ∧ storage_type f ∈ ["string"; "text"; "integer"; "date"]) fs →
  ∃ cols,
    create_columns type_engine fs [] = Ok cols
    ∧ name <$> (fields sqlalchemy_issubclass _sql_to_brewery_types
                  (mkSQLDataset cols None)).1 = name <$> fs
    ∧ storage_type <$> (fields sqlalchemy_issubclass _sql_to_brewery_types
                          (mkSQLDataset cols None)).1 = storage_type <$> fs.
Proof.
  intros Hall.
  assert (∃ cols, Forall2 (λ f col, field_column type_engine f = Ok col
                                    ∧ name (column_field sqlalchemy_issubclass
                                              _sql_to_brewery_types col)
                                      = name f
                                    ∧ storage_type
                                        (column_field sqlalchemy_issubclass
                                           _sql_to_brewery_types col)
                                      = storage_type f) fs cols)
    as [cols Hcols].
  { induction Hall as [|f rest [Hconcrete Hstorage] _ [cols IH]].
    - exists []. constructor.
    - destruct (field_column_read_back type_engine f Hconcrete Hstorage)
        as [col Hcol].
      exists (col :: cols). by constructor. }
  exists cols. split; [|split].
  - apply create_columns_spec. exists cols. split; [done|].
    eapply Forall2_impl; [done|]. by intros f col (? & _).
  - unfold fields. cbn [_fields table_columns fst].
    apply list_eq_Forall2, Forall2_fmap, Forall2_fmap_l, Forall2_flip.
    eapply Forall2_impl; [done|]. by intros f col (_ & Hname & _).
  - unfold fields. cbn [_fields table_columns fst].
    apply list_eq_Forall2, Forall2_fmap, Forall2_fmap_l, Forall2_flip.
    eapply Forall2_impl; [done|]. by intros f col (_ & _ & Hst).
Qed.

Lemma create_then_read_fields_witness :
  ∃ cols,
    create_columns (λ _ : string, None)
      [mkField "id" None "integer" (Some "typeless") None None;
       mkField "note" None "text" (Some "typeless") None None] [] = Ok cols
    ∧ name <$> (fields sqlalchemy_issubclass _sql_to_brewery_types
                  (mkSQLDataset cols None)).1
      = name <$> [mkField (C := string) "id" None "integer"
                          (Some "typeless") None None;
                  mkField "note" None "text" (Some "typeless") None None]
    ∧ storage_type <$> (fields sqlalchemy_issubclass _sql_to_brewery_types
                          (mkSQLDataset cols None)).1
      = storage_type <$> [mkField (C := string) "id" None "integer"
                                  (Some "typeless") None None;
                          mkField "note" None "text" (Some "typeless")
                                  None None].
Proof.
  apply (create_then_read_fields (λ _ : string, None)).
  repeat constructor; by_compute.
Defined.

(** A boolean field does not come back: its column is a
    [SmallInteger], which reads as [integer]. *)
Example create_then_read_boolean :
  (λ cols, storage_type
             <$> (fields sqlalchemy_issubclass _sql_to_brewery_types
                    (mkSQLDataset cols None)).1)
    <$> match create_columns (λ _ : string, None)
                [mkField "ok" None "boolean" None None None] [] with
        | Ok cols => Some cols
        | Raise _ => None
        end
  = Some ["integer"].
Proof. vm_compute. reflexivity. Qed.

(** ** Rows and records: [zip] by position *)

Lemma fst_zip_take {A B} (l : list A) (k : list B) :
  (zip l k).*1 = take (length k) l.
Proof.
  revert k. induction l as [|x l IH]; intros k; [by destruct k|].
  destruct k as [|y k]; [done|]. cbn. f_equal. apply IH.
Qed.

Lemma lookup_dict_of_zip {V} (names : list string) (row : list V) (i : nat)
    (n : string) :
  NoDup names → names !! i = Some n →
  dict_of (zip names row) !! n = row !! i.
Proof.
  intros Hnodup Hn.
  assert (NoDup (zip names row).*1) as Hnodup'.
  { rewrite fst_zip_take. eapply sublist_NoDup; [done|apply sublist_take]. }
  destruct (row !! i) as [v|] eqn:Hrow.
  - rewrite dict_of_NoDup by done. apply elem_of_list_to_map; [done|].
    apply (list_elem_of_lookup_2 _ i). by apply lookup_zip_Some.
  - apply dict_of_None. rewrite fst_zip_take. intros Hin.
    apply list_elem_of_lookup in Hin as [j Hj].
    apply lookup_take_Some in Hj as [Hj Hlt].
    pose proof (NoDup_lookup _ _ _ _ Hnodup Hn Hj) as ->.
    apply lookup_ge_None in Hrow. lia.
Qed.

(** X20. [append] of a row routes by position: when the field names are
    distinct, the record handed to the insert command has, under each
    field name, the value at that position of the row, and no value
    under a name whose position is beyond the row. *)
Theorem append_row_by_position (self : SQLDataTarget) (row : list atom) :
  NoDup (field_names self).1 →
  ∃ self' record,
    append self (ASeq row) = Ok self'
    ∧ executed self' = executed self ++ [record]
    ∧ ∀ i n, (field_names self).1 !! i = Some n → record !! n = row !! i.
Proof.
  intros Hnodup. unfold append.
  assert (executed (field_names self).2 = executed self) as Hexecuted.
  { unfold field_names. destruct (_field_names self) as [[|? ?]|];
      destruct (target_fields self) as [[|? ?]|]; done. }
  destruct (field_names self) as [names self1]. cbn [fst snd] in *.
  eexists _, (dict_of (zip names row)). split; [done|].
  split; [by rewrite <-Hexecuted|].
  intros i n Hn. by apply lookup_dict_of_zip.
Qed.

Lemma append_row_by_position_witness :
  ∃ self' record,
    append (mkSQLDataTarget None None ["a"; "b"; "c"] [])
           (ASeq [AInt 1; AText "x"]) = Ok self'
    ∧ executed self'
      = executed (mkSQLDataTarget None None ["a"; "b"; "c"] []) ++ [record]
    ∧ ∀ i n,
        (field_names (mkSQLDataTarget None None ["a"; "b"; "c"] [])).1 !! i
        = Some n → record !! n = [AInt 1; AText "x"] !! i.
Proof.
  apply (append_row_by_position
           (mkSQLDataTarget None None ["a"; "b"; "c"] [])
           [AInt 1; AText "x"]).
  by_compute.
Defined.

(** [SQLDataSource.records]: each row of [rows()] zipped with the field
    names. *)
Definition records (field_names : list string) (rows : list (list atom))
    : list (gmap string atom) :=
  (λ row, dict_of (zip field_names row)) <$> rows.

(** X21. The records of a source keep its rows: with distinct field
    names and rows as long as the field list, looking the field names
    up in the record of a row gives the row back. *)
Theorem records_keep_rows (names : list string) (rows : list (list atom)) :
  NoDup names →
  Forall (λ row, length row = length names) rows →
  (λ record, (λ n, record !! n) <$> names) <$> records names rows
  = fmap Some <$> rows.
Proof.
  intros Hnodup Hrows. unfold records. rewrite <-list_fmap_compose.
  apply Forall_fmap_ext_1. eapply Forall_impl; [done|].
  intros row Hlen. cbn in Hlen |- *. apply list_eq. intros i.
  rewrite !list_lookup_fmap.
  destruct (names !! i) as [n|] eqn:Hn; cbn.
  - rewrite (lookup_dict_of_zip names row i n) by done.
    destruct (row !! i) eqn:Hrow; [done|].
    apply lookup_ge_None in Hrow. apply lookup_lt_Some in Hn. lia.
  - apply lookup_ge_None in Hn.
    assert (row !! i = None) as -> by (apply lookup_ge_None; lia). done.
Qed.

Lemma records_keep_rows_witness :
  (λ record, (λ n, record !! n) <$> ["id"; "name"])
    <$> records ["id"; "name"] [[AInt 1; AText "a"]; [AInt 2; ANone]]
  = fmap Some <$> [[AInt 1; AText "a"]; [AInt 2; ANone]].
Proof.
  apply records_keep_rows.
  - by_compute.
  - by repeat constructor.
Defined.
